(** * vibetide: range-request audio streaming

    A shallow embedding of the range-request audio client
    ([utils/audioFetcher.ts], class [AudioFetcher]), of the two player
    hooks ([hooks/useRangeAudioPlayer.tsx], [hooks/useAudioPlayer.tsx]), of
    the proxy route ([app/api/audio/[...path]/route.ts]) and of the time
    display ([components/AudioPlayer.tsx]), followed by the properties of
    the specification that concern them and by further properties of the
    code.

    Numbers.  JavaScript numbers are IEEE doubles.  Byte offsets, sizes,
    status codes and track indices are integers far below 2^53 and are
    modelled by [Z]; seconds are modelled by [Q]: every finite double is a
    rational and the only operations the hooks apply to seconds
    ([Math.min], [Math.max], [Math.floor]) are exact on doubles.  The time
    display also takes the remainder by 60, which is exact, and the floor of
    the quotient by 60, which the rounding of the quotient does not change
    below 2^53.  [NaN] and the infinities are outside the model.

    Exceptions.  A thrown value is modelled by the text that a template
    literal makes of it ([String(err)]): [new Error(m)] is ["Error: " ++ m].

    Asynchrony.  The fetch client is run against an environment that answers
    every request; the hook is a transition system whose events are the
    user's actions, React's track-change effect, the settling of the promises
    the hook awaits, and the audio element's events. *)

From Stdlib Require Import ZArith QArith Qround Qminmax String Ascii List.
From Stdlib Require Import Decimal DecimalString DecimalPos DecimalZ Lia.
From stdpp Require Import base option list gmap strings.

Local Open Scope string_scope.
Local Open Scope Z_scope.

(* stdpp freezes [String.append] under [simpl]; the proofs below compute
   with it. *)
#[local] Arguments String.append !s1 s2 : simpl nomatch.

(** ** Values shared by the fetch client and the hooks *)

(** Outcome of a promise (or of a block that may throw): the value, or the
    text of the thrown value. *)
Inductive Result (A : Type) : Type :=
| Ok (a : A)
| Err (e : string).
Arguments Ok {A} a.
Arguments Err {A} e.

(** [`${n}`] for an integer [n]. *)
Definition numberToString (n : Z) : string :=
  NilEmpty.string_of_int (Z.to_int n).

(** [String(new Error(m))]. *)
Definition newError (m : string) : string := "Error: " ++ m.

Definition MiB : Z := 1024 * 1024.
Definition KiB : Z := 1024.

(** ** [utils/audioFetcher.ts] *)
Module AudioFetcher.

Record AudioMetadata : Type := {
  duration : Q;
  size : Z;
  contentType : string;
  acceptRanges : bool
}.

(** [end] is optional in the source ([end?: number]). *)
Record RangeRequest : Type := {
  start : Z;
  end_ : option Z
}.

Inductive Method : Type := GET | HEAD.

(** What a call of [fetch] sends: the [init.method] (GET when absent), the
    URL, and the [Range] header when one is given. *)
Record Request : Type := {
  method : Method;
  url : string;
  rangeHeader : option string
}.

(** What [fetch] resolves to.  The [content-length] header is modelled by
    the integer [parseInt(_, 10)] reads from it; [body] is the outcome of
    [arrayBuffer()] / [blob()]. *)
Record Response : Type := {
  status : Z;
  contentLengthHeader : option Z;
  contentTypeHeader : option string;
  acceptRangesHeader : option string;
  body : Result (list N)
}.

(** [response.ok]. *)
Definition ok (r : Response) : bool :=
  (200 <=? status r) && (status r <=? 299).

Record Blob : Type := {
  blobType : string;
  blobParts : list N
}.

(** The browser around the client: the network answers a request knowing
    the requests made before it; [decodeAudioData] yields the duration of
    a decodable buffer. *)
Record Env : Type := {
  network : list Request -> Request -> Result Response;
  decodeAudioData : list N -> option Q
}.

(** The [AudioFetcher] instance with the observable effects of its
    methods: the requests sent so far, the console lines, the object URLs
    created by [URL.createObjectURL]. *)
Record Fetcher : Type := {
  baseUrl : string;
  cache : gmap string AudioMetadata;
  requests : list Request;
  console : list string;
  objectURLs : list (string * Blob)
}.

(** [new AudioFetcher()] *)
Definition new : Fetcher :=
  {| baseUrl := "/api/audio"; cache := ∅; requests := [];
     console := []; objectURLs := [] |}.

(** An [async] method: it changes the instance and settles. *)
Definition M (A : Type) : Type := Fetcher -> Result A * Fetcher.

#[global] Instance M_ret : MRet M := fun A a f => (Ok a, f).
#[global] Instance M_bind : MBind M := fun A B k m f =>
  match m f with
  | (Ok a, f') => k a f'
  | (Err e, f') => (Err e, f')
  end.

Definition throw {A} (e : string) : M A := fun f => (Err e, f).

Definition try_catch {A} (body : M A) (handler : string -> M A) : M A :=
  fun f =>
    match body f with
    | (Ok a, f') => (Ok a, f')
    | (Err e, f') => handler e f'
    end.

Definition this : M Fetcher := fun f => (Ok f, f).

Definition console_log (line : string) : M unit := fun f =>
  (Ok tt, {| baseUrl := baseUrl f; cache := cache f; requests := requests f;
             console := console f ++ [line]; objectURLs := objectURLs f |}).

Definition cache_set (k : string) (md : AudioMetadata) : M unit := fun f =>
  (Ok tt, {| baseUrl := baseUrl f; cache := <[k := md]> (cache f);
             requests := requests f; console := console f;
             objectURLs := objectURLs f |}).

(** [URL.createObjectURL(blob)]: a fresh [blob:] URL. *)
Definition createObjectURL (b : Blob) : M string := fun f =>
  let u := "blob:" ++ numberToString (Z.of_nat (length (objectURLs f))) in
  (Ok u, {| baseUrl := baseUrl f; cache := cache f; requests := requests f;
            console := console f; objectURLs := objectURLs f ++ [(u, b)] |}).

Definition settle {A} (r : Result A) : M A := fun f => (r, f).

Section WithEnv.
Variable env : Env.

(** [fetch(url, init)]: the request is recorded, the environment
    answers. *)
Definition fetch (req : Request) : M Response := fun f =>
  (network env (requests f) req,
   {| baseUrl := baseUrl f; cache := cache f;
      requests := requests f ++ [req]; console := console f;
      objectURLs := objectURLs f |}).

Definition resource (audioPath : string) : M string :=
  f ← this; mret (baseUrl f ++ "/" ++ audioPath).

(** [range.end ? `bytes=${range.start}-${range.end}`
               : `bytes=${range.start}-`]; an [end] of 0 is falsy. *)
Definition rangeHeaderOf (range : RangeRequest) : string :=
  match end_ range with
  | Some e =>
      if e =? 0 then "bytes=" ++ numberToString (start range) ++ "-"
      else "bytes=" ++ numberToString (start range) ++ "-"
                    ++ numberToString e
  | None => "bytes=" ++ numberToString (start range) ++ "-"
  end.

Definition fetchRange (audioPath : string) (range : RangeRequest)
  : M Response :=
  let rangeHeader := rangeHeaderOf range in
  u ← resource audioPath;
  response ← fetch {| method := GET; url := u;
                      rangeHeader := Some rangeHeader |};
  if negb (status response =? 206) && negb (status response =? 200)
  then throw (newError ("Range request failed: "
                        ++ numberToString (status response)))
  else mret response.

(** Rough estimation: 128 kbps. It catches everything it can throw. *)
Definition estimateDurationFromSize (audioPath : string) : M Q :=
  try_catch
    (u ← resource audioPath;
     response ← fetch {| method := HEAD; url := u; rangeHeader := None |};
     match contentLengthHeader response with
     | Some sizeInBytes =>
         mret ((inject_Z (sizeInBytes * 8)) / (inject_Z (128 * 1000)))%Q
     | None => mret 0%Q
     end)
    (fun _ => mret 0%Q).

(** The [try] block covers the range fetch and the reading of the body;
    the promise it returns is settled by the decoder or, when decoding
    fails, by the estimate. *)
Definition getAudioDuration (audioPath : string) : M Q :=
  buffer ← try_catch
    (response ← fetchRange audioPath {| start := 0; end_ := Some MiB |};
     if negb (ok response)
     then throw (newError ("Failed to fetch audio data: "
                           ++ numberToString (status response)))
     else
       arrayBuffer ← settle (body response);
       mret (Some arrayBuffer))
    (fun _ =>
       console_log "Could not determine audio duration, using fallback";;
       mret None);
  match buffer with
  | None => mret 0%Q
  | Some arrayBuffer =>
      match decodeAudioData env arrayBuffer with
      | Some d => mret d
      | None =>
          try_catch (estimateDurationFromSize audioPath)
            (fun _ => throw (newError "Could not determine audio duration"))
      end
  end.

Definition getMetadata (audioPath : string) : M AudioMetadata :=
  let cacheKey := "metadata:" ++ audioPath in
  f ← this;
  match cache f !! cacheKey with
  | Some cached => mret cached
  | None =>
      try_catch
        (u ← resource audioPath;
         response ← fetch {| method := HEAD; url := u;
                             rangeHeader := Some "bytes=0-1" |};
         if negb (ok response)
         then throw (newError ("Failed to fetch metadata: "
                               ++ numberToString (status response)))
         else
           let contentLength := contentLengthHeader response in
           let contentType :=
             match contentTypeHeader response with
             | Some t => if String.eqb t "" then "audio/mpeg" else t
             | None => "audio/mpeg"
             end in
           let acceptRanges :=
             match acceptRangesHeader response with
             | Some v => String.eqb v "bytes"
             | None => false
             end in
           duration ← getAudioDuration audioPath;
           let metadata :=
             {| duration := duration;
                size := match contentLength with
                        | Some n => n
                        | None => 0
                        end;
                contentType := contentType;
                acceptRanges := acceptRanges |} in
           cache_set cacheKey metadata;;
           mret metadata)
        (fun error =>
           console_log ("Error fetching audio metadata: " ++ error);;
           throw error)
  end.

Definition createRangeBlob (audioPath : string) (range : RangeRequest)
  : M string :=
  try_catch
    (response ← fetchRange audioPath range;
     bytes ← settle (body response);
     createObjectURL
       {| blobType := default "" (contentTypeHeader response);
          blobParts := bytes |})
    (fun error =>
       console_log ("Error creating range blob: " ++ error);;
       throw error).

(** With range support the blob is empty (its overridden [arrayBuffer]
    is the only thing that would fetch, and nothing here calls it);
    without, the whole resource is fetched, with no [Range] header. *)
Definition createStreamingBlob (audioPath : string) : M string :=
  try_catch
    (metadata ← getMetadata audioPath;
     if negb (acceptRanges metadata)
     then
       u ← resource audioPath;
       response ← fetch {| method := GET; url := u; rangeHeader := None |};
       bytes ← settle (body response);
       createObjectURL
         {| blobType := default "" (contentTypeHeader response);
            blobParts := bytes |}
     else
       createObjectURL
         {| blobType := contentType metadata; blobParts := [] |})
    (fun error =>
       console_log ("Error creating streaming blob: " ++ error);;
       throw error).

Definition preloadRange (audioPath : string) (range : RangeRequest)
  : M (list N) :=
  response ← fetchRange audioPath range;
  settle (body response).

End WithEnv.

Definition clearCache : M unit := fun f =>
  (Ok tt, {| baseUrl := baseUrl f; cache := ∅; requests := requests f;
             console := console f; objectURLs := objectURLs f |}).

End AudioFetcher.

(** ** [hooks/useRangeAudioPlayer.tsx] *)
Module RangePlayer.

(** The [HTMLAudioElement] behind [audioRef]: the attributes the hook
    reads or writes. *)
Record Audio : Type := {
  src : string;
  currentTime : Q;
  audioVolume : Q;
  preload : string
}.

(** [new Audio()] *)
Definition newAudio : Audio :=
  {| src := ""; currentTime := 0%Q; audioVolume := 1%Q; preload := "auto" |}.

(** The hook's ranges always carry both ends. *)
Record Range : Type := {
  start : Z;
  end_ : Z
}.

Definition toRequest (range : Range) : AudioFetcher.RangeRequest :=
  {| AudioFetcher.start := start range;
     AudioFetcher.end_ := Some (end_ range) |}.

(** What the hook asks of its collaborators, in the order it asks. *)
Inductive Call : Type :=
| GetMetadata (trackPath : string)
| CreateStreamingBlob (trackPath : string)
| PreloadRange (trackPath : string) (range : AudioFetcher.RangeRequest)
| RevokeObjectURL (u : string)
| ClearCache
| AudioLoad
| AudioPlay
| AudioPause
| ConsoleWarn (line : string).

(** The [useState] cells, the three refs, and the calls made so far. *)
Record Player : Type := {
  currentTrack : Z;
  isPlaying : bool;
  volume : Q;
  duration : Q;
  seek : Q;
  isLoading : bool;
  error : option string;
  audioRef : option Audio;
  metadataRef : option AudioFetcher.AudioMetadata;
  preloadedRanges : gset string;
  calls : list Call
}.

Definition initial : Player :=
  {| currentTrack := 0; isPlaying := false; volume := 1%Q; duration := 0%Q;
     seek := 0%Q; isLoading := false; error := None; audioRef := None;
     metadataRef := None; preloadedRanges := ∅; calls := [] |}.

Definition setCurrentTrack (i : Z) (p : Player) : Player :=
  {| currentTrack := i; isPlaying := isPlaying p; volume := volume p;
     duration := duration p; seek := seek p; isLoading := isLoading p;
     error := error p; audioRef := audioRef p; metadataRef := metadataRef p;
     preloadedRanges := preloadedRanges p; calls := calls p |}.

Definition setIsPlaying (b : bool) (p : Player) : Player :=
  {| currentTrack := currentTrack p; isPlaying := b; volume := volume p;
     duration := duration p; seek := seek p; isLoading := isLoading p;
     error := error p; audioRef := audioRef p; metadataRef := metadataRef p;
     preloadedRanges := preloadedRanges p; calls := calls p |}.

Definition setVolume (v : Q) (p : Player) : Player :=
  {| currentTrack := currentTrack p; isPlaying := isPlaying p; volume := v;
     duration := duration p; seek := seek p; isLoading := isLoading p;
     error := error p; audioRef := audioRef p; metadataRef := metadataRef p;
     preloadedRanges := preloadedRanges p; calls := calls p |}.

Definition setDuration (d : Q) (p : Player) : Player :=
  {| currentTrack := currentTrack p; isPlaying := isPlaying p;
     volume := volume p; duration := d; seek := seek p;
     isLoading := isLoading p; error := error p; audioRef := audioRef p;
     metadataRef := metadataRef p; preloadedRanges := preloadedRanges p;
     calls := calls p |}.

Definition setSeek (t : Q) (p : Player) : Player :=
  {| currentTrack := currentTrack p; isPlaying := isPlaying p;
     volume := volume p; duration := duration p; seek := t;
     isLoading := isLoading p; error := error p; audioRef := audioRef p;
     metadataRef := metadataRef p; preloadedRanges := preloadedRanges p;
     calls := calls p |}.

Definition setIsLoading (b : bool) (p : Player) : Player :=
  {| currentTrack := currentTrack p; isPlaying := isPlaying p;
     volume := volume p; duration := duration p; seek := seek p;
     isLoading := b; error := error p; audioRef := audioRef p;
     metadataRef := metadataRef p; preloadedRanges := preloadedRanges p;
     calls := calls p |}.

Definition setError (e : option string) (p : Player) : Player :=
  {| currentTrack := currentTrack p; isPlaying := isPlaying p;
     volume := volume p; duration := duration p; seek := seek p;
     isLoading := isLoading p; error := e; audioRef := audioRef p;
     metadataRef := metadataRef p; preloadedRanges := preloadedRanges p;
     calls := calls p |}.

Definition setAudio (a : option Audio) (p : Player) : Player :=
  {| currentTrack := currentTrack p; isPlaying := isPlaying p;
     volume := volume p; duration := duration p; seek := seek p;
     isLoading := isLoading p; error := error p; audioRef := a;
     metadataRef := metadataRef p; preloadedRanges := preloadedRanges p;
     calls := calls p |}.

Definition setMetadata (m : option AudioFetcher.AudioMetadata) (p : Player)
  : Player :=
  {| currentTrack := currentTrack p; isPlaying := isPlaying p;
     volume := volume p; duration := duration p; seek := seek p;
     isLoading := isLoading p; error := error p; audioRef := audioRef p;
     metadataRef := m; preloadedRanges := preloadedRanges p;
     calls := calls p |}.

Definition setPreloaded (s : gset string) (p : Player) : Player :=
  {| currentTrack := currentTrack p; isPlaying := isPlaying p;
     volume := volume p; duration := duration p; seek := seek p;
     isLoading := isLoading p; error := error p; audioRef := audioRef p;
     metadataRef := metadataRef p; preloadedRanges := s; calls := calls p |}.

Definition call (c : Call) (p : Player) : Player :=
  {| currentTrack := currentTrack p; isPlaying := isPlaying p;
     volume := volume p; duration := duration p; seek := seek p;
     isLoading := isLoading p; error := error p; audioRef := audioRef p;
     metadataRef := metadataRef p; preloadedRanges := preloadedRanges p;
     calls := calls p ++ [c] |}.

(** [tracks[i]]; out of range it is [undefined], which the template
    literals print as ["undefined"]. *)
Definition trackAt (tracks : list string) (i : Z) : string :=
  if i <? 0 then "undefined"
  else default "undefined" (tracks !! Z.to_nat i).

(** [s.startsWith('blob:')] *)
Definition startsWithBlob (s : string) : bool :=
  String.prefix "blob:" s.

(** *** The range-presence cache ([preloadedRanges]) *)

(** [`${trackPath}:${range.start}-${range.end}`] *)
Definition rangeKey (trackPath : string) (range : Range) : string :=
  trackPath ++ ":" ++ numberToString (start range) ++ "-"
            ++ numberToString (end_ range).

(** [preloadedRanges.current.has(rangeKey)] *)
Definition hasPreloaded (s : gset string) (trackPath : string)
  (range : Range) : bool :=
  bool_decide (rangeKey trackPath range ∈ s).

(** [preloadedRanges.current.add(rangeKey)] *)
Definition markPreloaded (s : gset string) (trackPath : string)
  (range : Range) : gset string :=
  {[ rangeKey trackPath range ]} ∪ s.

(** *** [preloadRange], up to its [await] and after it *)

Definition preloadRange (trackPath : string) (range : Range) (p : Player)
  : Player :=
  if hasPreloaded (preloadedRanges p) trackPath range then p
  else call (PreloadRange trackPath (toRequest range)) p.

Definition preloadRange_settled (trackPath : string) (range : Range)
  (r : Result (list N)) (p : Player) : Player :=
  match r with
  | Ok _ =>
      setPreloaded (markPreloaded (preloadedRanges p) trackPath range) p
  | Err err => call (ConsoleWarn ("Failed to preload range: " ++ err)) p
  end.

(** *** [loadTrack], cut at its two [await]s *)

Definition loadTrack_catch (err : string) (p : Player) : Player :=
  setIsLoading false (setError (Some ("Failed to load track: " ++ err)) p).

Definition loadTrack (trackPath : string) (p : Player) : Player :=
  match audioRef p with
  | None => p
  | Some _ =>
      call (GetMetadata trackPath)
        (setSeek 0%Q (setError None (setIsLoading true p)))
  end.

Definition loadTrack_metadata (trackPath : string)
  (r : Result AudioFetcher.AudioMetadata) (p : Player) : Player :=
  match r with
  | Ok metadata =>
      call (CreateStreamingBlob trackPath)
        (setDuration (AudioFetcher.duration metadata)
           (setMetadata (Some metadata) p))
  | Err err => loadTrack_catch err p
  end.

Definition nullSrc : string :=
  "TypeError: Cannot read properties of null (reading 'src')".

Definition loadTrack_blob (trackPath : string) (r : Result string)
  (p : Player) : Player :=
  match r with
  | Ok blobUrl =>
      match audioRef p with
      | None => loadTrack_catch nullSrc p
      | Some a =>
          let p1 :=
            if negb (String.eqb (src a) "") && startsWithBlob (src a)
            then call (RevokeObjectURL (src a)) p else p in
          let a' := {| src := blobUrl; currentTime := currentTime a;
                       audioVolume := audioVolume a;
                       preload := preload a |} in
          let p2 := call AudioLoad (setAudio (Some a') p1) in
          preloadRange trackPath {| start := 0; end_ := 1024 * 1024 |} p2
      end
  | Err err => loadTrack_catch err p
  end.

(** *** The handlers *)

Definition handlePlayPause (p : Player) : Player :=
  match audioRef p with
  | None => p
  | Some _ =>
      if isPlaying p then setIsPlaying false (call AudioPause p)
      else setIsPlaying true (call AudioPlay p)
  end.

(** [%] is the remainder of the truncated division. *)
Definition handleNext (tracks : list string) (p : Player) : Player :=
  setIsPlaying true
    (setCurrentTrack
       (Z.rem (currentTrack p + 1) (Z.of_nat (length tracks))) p).

Definition handlePrev (tracks : list string) (p : Player) : Player :=
  setIsPlaying true
    (setCurrentTrack
       (if currentTrack p =? 0 then Z.of_nat (length tracks) - 1
        else currentTrack p - 1) p).

Definition seekTimeOf (newSeek : Q) (p : Player) : Q :=
  Qmax 0 (Qmin newSeek (duration p)).

Definition seekWindow (seekTime : Q) (size : Z) : Range :=
  let seekPosition := Qfloor seekTime in
  let rangeStart := Z.max 0 (seekPosition * 1024 * 1024 - 512 * 1024) in
  let rangeEnd :=
    Z.min size (seekPosition * 1024 * 1024 + 1024 * 1024) in
  {| start := rangeStart; end_ := rangeEnd |}.

Definition handleSeek (tracks : list string) (newSeek : Q) (p : Player)
  : Player :=
  match audioRef p, metadataRef p with
  | Some a, Some metadata =>
      let seekTime := seekTimeOf newSeek p in
      let p1 :=
        preloadRange (trackAt tracks (currentTrack p))
          (seekWindow seekTime (AudioFetcher.size metadata)) p in
      let a' := {| src := src a; currentTime := seekTime;
                   audioVolume := audioVolume a; preload := preload a |} in
      setSeek seekTime (setAudio (Some a') p1)
  | _, _ => p
  end.

(** *** The transition system *)

Inductive Event : Type :=
| Mount                (* the effect that creates the audio element *)
| TrackEffect          (* the effect on [currentTrack]: [loadTrack] *)
| VolumeEffect         (* the effect on [volume] *)
| Unmount              (* the cleanup of the last effect *)
| MetadataSettled (trackPath : string)
    (r : Result AudioFetcher.AudioMetadata)
| BlobSettled (trackPath : string) (r : Result string)
| PreloadSettled (trackPath : string) (range : Range) (r : Result (list N))
| PlayRejected (err : string)
| Loadstart
| Canplay
| AudioError
| Timeupdate (t : Q)
| Ended
| PlayPause
| Next
| Prev
| Seek (newSeek : Q)
| SetVolume (v : Q).

Definition step (tracks : list string) (p : Player) (ev : Event) : Player :=
  match ev with
  | Mount =>
      match audioRef p with
      | None =>
          setAudio (Some {| src := src newAudio;
                            currentTime := currentTime newAudio;
                            audioVolume := audioVolume newAudio;
                            preload := "metadata" |}) p
      | Some _ => p
      end
  | TrackEffect => loadTrack (trackAt tracks (currentTrack p)) p
  | VolumeEffect =>
      match audioRef p with
      | Some a =>
          setAudio (Some {| src := src a; currentTime := currentTime a;
                            audioVolume := volume p;
                            preload := preload a |}) p
      | None => p
      end
  | Unmount =>
      call ClearCache
        match audioRef p with
        | Some a =>
            if negb (String.eqb (src a) "") && startsWithBlob (src a)
            then call (RevokeObjectURL (src a)) p else p
        | None => p
        end
  | MetadataSettled trackPath r => loadTrack_metadata trackPath r p
  | BlobSettled trackPath r => loadTrack_blob trackPath r p
  | PreloadSettled trackPath range r =>
      preloadRange_settled trackPath range r p
  | PlayRejected err => setError (Some ("Playback error: " ++ err)) p
  | Loadstart => setIsLoading true p
  | Canplay => setIsLoading false p
  | AudioError =>
      setIsLoading false (setError (Some "Audio error: [object Event]") p)
  | Timeupdate t =>
      match audioRef p with
      | Some a =>
          setSeek t
            (setAudio (Some {| src := src a; currentTime := t;
                               audioVolume := audioVolume a;
                               preload := preload a |}) p)
      | None => p
      end
  | Ended => handleNext tracks p
  | PlayPause => handlePlayPause p
  | Next => handleNext tracks p
  | Prev => handlePrev tracks p
  | Seek newSeek => handleSeek tracks newSeek p
  | SetVolume v => setVolume v p
  end.

Definition run (tracks : list string) (evs : list Event) (p : Player)
  : Player :=
  fold_left (step tracks) evs p.

(** The states passed through, the starting one first. *)
Fixpoint states (tracks : list string) (evs : list Event) (p : Player)
  : list Player :=
  match evs with
  | [] => [p]
  | ev :: evs' => p :: states tracks evs' (step tracks p ev)
  end.

End RangePlayer.

(** ** [hooks/useAudioPlayer.tsx]: the Howler-based hook *)
Module HowlPlayer.

(** The [useState] cells and the source of the [Howl] in [soundRef]. *)
Record Player : Type := {
  currentTrack : Z;
  isPlaying : bool;
  volume : Q;
  duration : Q;
  seek : Q;
  soundRef : option string
}.

Definition handleNext (tracks : list string) (p : Player) : Player :=
  {| currentTrack := Z.rem (currentTrack p + 1) (Z.of_nat (length tracks));
     isPlaying := true; volume := volume p; duration := duration p;
     seek := seek p; soundRef := soundRef p |}.

Definition handlePrev (tracks : list string) (p : Player) : Player :=
  {| currentTrack := if currentTrack p =? 0
                     then Z.of_nat (length tracks) - 1
                     else currentTrack p - 1;
     isPlaying := true; volume := volume p; duration := duration p;
     seek := seek p; soundRef := soundRef p |}.

(** No clamping here: the position is handed to Howler as it is. *)
Definition handleSeek (newSeek : Q) (p : Player) : Player :=
  match soundRef p with
  | Some _ =>
      {| currentTrack := currentTrack p; isPlaying := isPlaying p;
         volume := volume p; duration := duration p; seek := newSeek;
         soundRef := soundRef p |}
  | None => p
  end.

End HowlPlayer.

(** ** [hooks/useAudioPlayer.tsx]: the Howler-based hook with its refs *)
Module HowlSession.

(** What the hook asks of Howler and of the timers; Howls and intervals
    are named by the order of their creation. *)
Inductive Command : Type :=
| NewHowl (id : nat) (src : string) (volume : Q)
| Unload (id : nat)
| Play (id : nat)
| Pause (id : nat)
| SeekTo (id : nat) (position : Q)
| Volume (id : nat) (volume : Q)
| SetInterval (timer : nat)
| ClearInterval (timer : nat).

(** The [useState] cells ([player]), the Howl in [soundRef.current], the
    timer in [seekInterval.current], the [sound] that the cleanup of the
    track effect closes over, and around the hook: the Howls that are
    loaded, the intervals that are running, and the commands so far. *)
Record Hook : Type := {
  player : HowlPlayer.Player;
  howl : option nat;
  seekInterval : option nat;
  effectSound : option nat;
  loaded : list nat;
  running : list nat;
  howls : nat;
  timers : nat;
  calls : list Command
}.

Definition initial : Hook :=
  {| player := {| HowlPlayer.currentTrack := 0; HowlPlayer.isPlaying := false;
                  HowlPlayer.volume := 1%Q; HowlPlayer.duration := 0%Q;
                  HowlPlayer.seek := 0%Q; HowlPlayer.soundRef := None |};
     howl := None; seekInterval := None; effectSound := None;
     loaded := []; running := []; howls := 0; timers := 0; calls := [] |}.

Definition setPlayer (q : HowlPlayer.Player) (h : Hook) : Hook :=
  {| player := q; howl := howl h; seekInterval := seekInterval h;
     effectSound := effectSound h; loaded := loaded h; running := running h;
     howls := howls h; timers := timers h; calls := calls h |}.

Definition call (c : Command) (h : Hook) : Hook :=
  {| player := player h; howl := howl h; seekInterval := seekInterval h;
     effectSound := effectSound h; loaded := loaded h; running := running h;
     howls := howls h; timers := timers h; calls := calls h ++ [c] |}.

Definition setIsPlaying (b : bool) (q : HowlPlayer.Player)
  : HowlPlayer.Player :=
  {| HowlPlayer.currentTrack := HowlPlayer.currentTrack q;
     HowlPlayer.isPlaying := b; HowlPlayer.volume := HowlPlayer.volume q;
     HowlPlayer.duration := HowlPlayer.duration q;
     HowlPlayer.seek := HowlPlayer.seek q;
     HowlPlayer.soundRef := HowlPlayer.soundRef q |}.

Definition setVolume (v : Q) (q : HowlPlayer.Player) : HowlPlayer.Player :=
  {| HowlPlayer.currentTrack := HowlPlayer.currentTrack q;
     HowlPlayer.isPlaying := HowlPlayer.isPlaying q; HowlPlayer.volume := v;
     HowlPlayer.duration := HowlPlayer.duration q;
     HowlPlayer.seek := HowlPlayer.seek q;
     HowlPlayer.soundRef := HowlPlayer.soundRef q |}.

Definition setDuration (d : Q) (q : HowlPlayer.Player) : HowlPlayer.Player :=
  {| HowlPlayer.currentTrack := HowlPlayer.currentTrack q;
     HowlPlayer.isPlaying := HowlPlayer.isPlaying q;
     HowlPlayer.volume := HowlPlayer.volume q; HowlPlayer.duration := d;
     HowlPlayer.seek := HowlPlayer.seek q;
     HowlPlayer.soundRef := HowlPlayer.soundRef q |}.

Definition setSeek (t : Q) (q : HowlPlayer.Player) : HowlPlayer.Player :=
  {| HowlPlayer.currentTrack := HowlPlayer.currentTrack q;
     HowlPlayer.isPlaying := HowlPlayer.isPlaying q;
     HowlPlayer.volume := HowlPlayer.volume q;
     HowlPlayer.duration := HowlPlayer.duration q; HowlPlayer.seek := t;
     HowlPlayer.soundRef := HowlPlayer.soundRef q |}.

Definition setSoundRef (s : option string) (q : HowlPlayer.Player)
  : HowlPlayer.Player :=
  {| HowlPlayer.currentTrack := HowlPlayer.currentTrack q;
     HowlPlayer.isPlaying := HowlPlayer.isPlaying q;
     HowlPlayer.volume := HowlPlayer.volume q;
     HowlPlayer.duration := HowlPlayer.duration q;
     HowlPlayer.seek := HowlPlayer.seek q; HowlPlayer.soundRef := s |}.

(** [sound.unload()] *)
Definition unload (id : nat) (h : Hook) : Hook :=
  {| player := player h; howl := howl h; seekInterval := seekInterval h;
     effectSound := effectSound h;
     loaded := List.remove Nat.eq_dec id (loaded h); running := running h;
     howls := howls h; timers := timers h;
     calls := calls h ++ [Unload id] |}.

Definition stopSeekUpdate (h : Hook) : Hook :=
  match seekInterval h with
  | Some timer =>
      {| player := player h; howl := howl h; seekInterval := None;
         effectSound := effectSound h; loaded := loaded h;
         running := List.remove Nat.eq_dec timer (running h);
         howls := howls h; timers := timers h;
         calls := calls h ++ [ClearInterval timer] |}
  | None => h
  end.

Definition startSeekUpdate (h : Hook) : Hook :=
  let h1 := stopSeekUpdate h in
  let timer := timers h1 in
  {| player := player h1; howl := howl h1; seekInterval := Some timer;
     effectSound := effectSound h1; loaded := loaded h1;
     running := timer :: running h1;
     howls := howls h1; timers := S (timers h1);
     calls := calls h1 ++ [SetInterval timer] |}.

(** The body of the effect on [currentTrack]. *)
Definition trackEffect (tracks : list string) (h : Hook) : Hook :=
  let h1 := match howl h with
            | Some old => unload old h
            | None => h
            end in
  let id := howls h1 in
  let src := RangePlayer.trackAt tracks
               (HowlPlayer.currentTrack (player h1)) in
  let h2 :=
    {| player := setSoundRef (Some src) (player h1); howl := Some id;
       seekInterval := seekInterval h1; effectSound := Some id;
       loaded := id :: loaded h1; running := running h1;
       howls := S (howls h1); timers := timers h1;
       calls := calls h1
                  ++ [NewHowl id src (HowlPlayer.volume (player h1))] |} in
  if HowlPlayer.isPlaying (player h2)
  then startSeekUpdate (call (Play id) h2)
  else h2.

(** The cleanup that the effect returned on its last run. *)
Definition cleanup (h : Hook) : Hook :=
  match effectSound h with
  | Some sound => stopSeekUpdate (unload sound h)
  | None => h
  end.

Definition handlePlayPause (h : Hook) : Hook :=
  match howl h with
  | None => h
  | Some id =>
      if HowlPlayer.isPlaying (player h)
      then
        let h1 := stopSeekUpdate (call (Pause id) h) in
        setPlayer (setIsPlaying false (player h1)) h1
      else
        let h1 := startSeekUpdate (call (Play id) h) in
        setPlayer (setIsPlaying true (player h1)) h1
  end.

Definition handleSeek (newSeek : Q) (h : Hook) : Hook :=
  match howl h with
  | Some id =>
      setPlayer (HowlPlayer.handleSeek newSeek (player h))
        (call (SeekTo id newSeek) h)
  | None => h
  end.

Inductive Event : Type :=
| TrackEffect          (* the effect on [currentTrack], its cleanup first *)
| VolumeEffect         (* the effect on [volume] *)
| Unmount
| Loaded (d : Q)       (* a Howl's [onload], with its duration *)
| Ended                (* a Howl's [onend] *)
| Tick (timer : nat) (playing : bool) (position : Q)
| PlayPause
| Next
| Prev
| Seek (newSeek : Q)
| SetVolume (v : Q).

Definition step (tracks : list string) (h : Hook) (ev : Event) : Hook :=
  match ev with
  | TrackEffect => trackEffect tracks (cleanup h)
  | VolumeEffect =>
      match howl h with
      | Some id => call (Volume id (HowlPlayer.volume (player h))) h
      | None => h
      end
  | Unmount => cleanup h
  | Loaded d => setPlayer (setDuration d (player h)) h
  | Ended => setPlayer (HowlPlayer.handleNext tracks (player h)) h
  | Tick timer playing position =>
      if bool_decide (timer ∈ running h) then
        match howl h with
        | Some _ =>
            if playing then setPlayer (setSeek position (player h)) h else h
        | None => h
        end
      else h
  | PlayPause => handlePlayPause h
  | Next => setPlayer (HowlPlayer.handleNext tracks (player h)) h
  | Prev => setPlayer (HowlPlayer.handlePrev tracks (player h)) h
  | Seek newSeek => handleSeek newSeek h
  | SetVolume v => setPlayer (setVolume v (player h)) h
  end.

Definition run (tracks : list string) (evs : list Event) (h : Hook) : Hook :=
  fold_left (step tracks) evs h.

End HowlSession.


(** ** The hook and the fetch client together

    [useRangeAudioPlayer] works on the module-level [audioFetcher].  Here
    every promise settles before the next event: the calls the hook makes
    are answered by the client at once. *)
Module Session.

(** The public methods of the client, as a caller may invoke them. *)
Inductive Op : Type :=
| GetMetadata (audioPath : string)
| FetchRange (audioPath : string) (range : AudioFetcher.RangeRequest)
| CreateRangeBlob (audioPath : string) (range : AudioFetcher.RangeRequest)
| CreateStreamingBlob (audioPath : string)
| PreloadRange (audioPath : string) (range : AudioFetcher.RangeRequest)
| ClearCache.


Definition perform (env : AudioFetcher.Env) (f : AudioFetcher.Fetcher)
  (op : Op) : AudioFetcher.Fetcher :=
  match op with
  | GetMetadata a => snd (AudioFetcher.getMetadata env a f)
  | FetchRange a r => snd (AudioFetcher.fetchRange env a r f)
  | CreateRangeBlob a r => snd (AudioFetcher.createRangeBlob env a r f)
  | CreateStreamingBlob a => snd (AudioFetcher.createStreamingBlob env a f)
  | PreloadRange a r => snd (AudioFetcher.preloadRange env a r f)
  | ClearCache => snd (AudioFetcher.clearCache f)
  end.

(** The metadata probe of [getMetadata]: the [HEAD] request that carries
    [Range: bytes=0-1]. *)
Definition isProbe (req : AudioFetcher.Request) : bool :=
  match AudioFetcher.method req, AudioFetcher.rangeHeader req with
  | AudioFetcher.HEAD, Some h => String.eqb h "bytes=0-1"
  | _, _ => false
  end.

Definition probes (f : AudioFetcher.Fetcher) : nat :=
  length (filter (fun req => isProbe req = true) (AudioFetcher.requests f)).

Record World : Type := {
  player : RangePlayer.Player;
  fetcher : AudioFetcher.Fetcher
}.

Section WithEnv.
Variable env : AudioFetcher.Env.
Variable tracks : list string.

(** The rest of the hook's [preloadRange] when the call was issued. *)
Definition preloadRange (trackPath : string) (range : RangePlayer.Range)
  (issued : bool) (w : World) : World :=
  if issued then
    let '(r, f') :=
      AudioFetcher.preloadRange env trackPath
        (RangePlayer.toRequest range) (fetcher w) in
    {| player :=
         RangePlayer.preloadRange_settled trackPath range r (player w);
       fetcher := f' |}
  else w.

Definition loadTrack (trackPath : string) (w : World) : World :=
  match RangePlayer.audioRef (player w) with
  | None => w
  | Some _ =>
      let p1 := RangePlayer.loadTrack trackPath (player w) in
      let '(r1, f1) := AudioFetcher.getMetadata env trackPath (fetcher w) in
      let p2 := RangePlayer.loadTrack_metadata trackPath r1 p1 in
      match r1 with
      | Err _ => {| player := p2; fetcher := f1 |}
      | Ok _ =>
          let '(r2, f2) :=
            AudioFetcher.createStreamingBlob env trackPath f1 in
          let p3 := RangePlayer.loadTrack_blob trackPath r2 p2 in
          match r2 with
          | Err _ => {| player := p3; fetcher := f2 |}
          | Ok _ =>
              let first :=
                {| RangePlayer.start := 0;
                   RangePlayer.end_ := 1024 * 1024 |} in
              preloadRange trackPath first
                (negb (RangePlayer.hasPreloaded
                         (RangePlayer.preloadedRanges p2) trackPath first))
                {| player := p3; fetcher := f2 |}
          end
      end
  end.

Definition seek (newSeek : Q) (w : World) : World :=
  let p := player w in
  let p' := RangePlayer.handleSeek tracks newSeek p in
  match RangePlayer.audioRef p, RangePlayer.metadataRef p with
  | Some _, Some metadata =>
      let trackPath := RangePlayer.trackAt tracks
                         (RangePlayer.currentTrack p) in
      let window :=
        RangePlayer.seekWindow (RangePlayer.seekTimeOf newSeek p)
          (AudioFetcher.size metadata) in
      preloadRange trackPath window
        (negb (RangePlayer.hasPreloaded
                 (RangePlayer.preloadedRanges p) trackPath window))
        {| player := p'; fetcher := fetcher w |}
  | _, _ => {| player := p'; fetcher := fetcher w |}
  end.

(** The first render: the audio element is created, then the track
    effect loads [tracks[0]]. *)
Definition mount (w : World) : World :=
  let p := RangePlayer.step tracks (player w) RangePlayer.Mount in
  loadTrack (RangePlayer.trackAt tracks (RangePlayer.currentTrack p))
    {| player := p; fetcher := fetcher w |}.

(** [next()]; the track effect runs again when the index changed. *)
Definition next (w : World) : World :=
  let p := RangePlayer.handleNext tracks (player w) in
  if RangePlayer.currentTrack p =? RangePlayer.currentTrack (player w)
  then {| player := p; fetcher := fetcher w |}
  else loadTrack (RangePlayer.trackAt tracks (RangePlayer.currentTrack p))
         {| player := p; fetcher := fetcher w |}.

End WithEnv.

Definition start : World :=
  {| player := RangePlayer.initial; fetcher := AudioFetcher.new |}.

End Session.

(** ** [components/AudioPlayer.tsx]: the time display *)
Module AudioPlayerView.

(** [x % y] on numbers: what is left of [x] after the quotient, truncated
    towards zero, times [y]. *)
Definition remainder (x y : Q) : Q :=
  let q := (x / y)%Q in
  (x - inject_Z (if Qle_bool 0 q then Qfloor q else Qceiling q) * y)%Q.

(** [formatTime(seconds)]; [None] is [NaN]. *)
Definition formatTime (seconds : option Q) : string :=
  match seconds with
  | None => "0:00"
  | Some s =>
      let minutes := Qfloor (s / 60) in
      let secs := Qfloor (remainder s 60) in
      numberToString minutes ++ ":"
        ++ (if secs <? 10 then "0" else "") ++ numberToString secs
  end.

End AudioPlayerView.

(** ** [app/api/audio/[...path]/route.ts]: the proxy *)
Module Route.

(** What the handlers send to the origin: the URL, the [Range] header
    ([GET] always sends one, empty when the client sent none; [HEAD] sends
    none) and the [User-Agent]. *)
Record OriginRequest : Type := {
  method : AudioFetcher.Method;
  url : string;
  range : option string;
  userAgent : string
}.

(** What the origin answers; [content-length] as the integer it tells,
    [body] as the outcome of [arrayBuffer()]. *)
Record OriginResponse : Type := {
  status : Z;
  contentType : option string;
  contentLength : option Z;
  contentRange : option string;
  body : Result (list N)
}.

Definition ok (r : OriginResponse) : bool :=
  (200 <=? status r) && (status r <=? 299).

Inductive Body : Type :=
| Text (s : string)
| Buffer (bytes : list N)
| NoBody.

(** A [NextResponse]: the status and the headers the handlers set. *)
Record ProxyResponse : Type := {
  proxyStatus : Z;
  proxyContentType : option string;
  proxyAcceptRanges : option string;
  proxyCacheControl : option string;
  proxyContentRange : option string;
  proxyContentLength : option Z;
  proxyBody : Body
}.

Definition plain (st : Z) (text : string) : ProxyResponse :=
  {| proxyStatus := st; proxyContentType := None; proxyAcceptRanges := None;
     proxyCacheControl := None; proxyContentRange := None;
     proxyContentLength := None; proxyBody := Text text |}.

(** [s || d] for a header value that may be missing. *)
Definition orElse (s : option string) (d : string) : string :=
  match s with
  | Some v => if String.eqb v "" then d else v
  | None => d
  end.

(** A header value that is there and not empty. *)
Definition truthy (s : option string) : bool :=
  match s with
  | Some v => negb (String.eqb v "")
  | None => false
  end.

Section WithOrigin.
Variable origin : OriginRequest -> Result OriginResponse.
(** [process.env.NEXT_PUBLIC_BASE_URL] *)
Variable NEXT_PUBLIC_BASE_URL : option string.

Definition audioUrlOf (path : list string) : string :=
  let audioPath := String.concat "/" path in
  orElse NEXT_PUBLIC_BASE_URL "http://localhost:3000" ++ "/" ++ audioPath.

(** [GET(request, { params })], with the [range] and [user-agent] headers
    of the request. *)
Definition GET (path : list string) (range userAgent : option string)
  : ProxyResponse :=
  let audioUrl := audioUrlOf path in
  match origin {| method := AudioFetcher.GET; url := audioUrl;
                  range := Some (orElse range "");
                  userAgent := orElse userAgent "Vibetide-Audio-Player" |}
  with
  | Err _ => plain 500 "Internal Server Error"
  | Ok response =>
      if negb (ok response) then plain 404 "Audio not found"
      else
        match body response with
        | Err _ => plain 500 "Internal Server Error"
        | Ok audioBuffer =>
            let contentType := orElse (contentType response) "audio/mpeg" in
            if truthy range && (status response =? 206) then
              {| proxyStatus := 206;
                 proxyContentType := Some contentType;
                 proxyAcceptRanges := Some "bytes";
                 proxyCacheControl := Some "public, max-age=31536000";
                 proxyContentRange :=
                   if truthy (contentRange response)
                   then contentRange response else None;
                 proxyContentLength := contentLength response;
                 proxyBody := Buffer audioBuffer |}
            else
              {| proxyStatus := 200;
                 proxyContentType := Some contentType;
                 proxyAcceptRanges := Some "bytes";
                 proxyCacheControl := Some "public, max-age=31536000";
                 proxyContentRange := None;
                 proxyContentLength :=
                   Some (Z.of_nat (length audioBuffer));
                 proxyBody := Buffer audioBuffer |}
        end
  end.

(** [HEAD(request, { params })] *)
Definition HEAD (path : list string) (userAgent : option string)
  : ProxyResponse :=
  let audioUrl := audioUrlOf path in
  match origin {| method := AudioFetcher.HEAD; url := audioUrl;
                  range := None;
                  userAgent := orElse userAgent "Vibetide-Audio-Player" |}
  with
  | Err _ => plain 500 "Internal Server Error"
  | Ok response =>
      if negb (ok response) then plain 404 "Audio not found"
      else
        {| proxyStatus := 200;
           proxyContentType :=
             Some (orElse (contentType response) "audio/mpeg");
           proxyAcceptRanges := Some "bytes";
           proxyCacheControl := Some "public, max-age=31536000";
           proxyContentRange := None;
           proxyContentLength :=
             Some (match contentLength response with
                   | Some n => n
                   | None => 0
                   end);
           proxyBody := NoBody |}
  end.

End WithOrigin.

End Route.


(** ** Vocabulary of the properties *)

(** *** Printed integers *)

Definition isDigit (c : ascii) : bool :=
  match c with
  | "0" | "1" | "2" | "3" | "4" | "5" | "6" | "7" | "8" | "9" => true
  | _ => false
  end%char.

Definition isNumeralChar (c : ascii) : bool :=
  isDigit c || Ascii.eqb c "-".

Fixpoint every (P : ascii -> bool) (s : string) : bool :=
  match s with
  | EmptyString => true
  | String c s' => P c && every P s'
  end.

(** Shape of a printed integer: digits, at least one, after an optional
    minus sign. *)
Inductive numeral : string -> Prop :=
| numeral_pos ds : ds <> "" -> every isDigit ds = true -> numeral ds
| numeral_neg ds : ds <> "" -> every isDigit ds = true ->
                   numeral (String "-" ds).

Definition endsWithDigit (s : string) : Prop :=
  exists s' d, s = s' ++ String d "" /\ isDigit d = true.

(** *** Order of the loading phase and of [isPlaying] *)

Inductive Phase : Type := BeforeLoading | Loading | Loaded.

Definition advance (ph : Phase) (p : RangePlayer.Player) : Phase :=
  match ph with
  | BeforeLoading =>
      if RangePlayer.isLoading p then Loading else BeforeLoading
  | Loading => if RangePlayer.isLoading p then Loading else Loaded
  | Loaded => Loaded
  end.

Definition isLoaded (ph : Phase) : bool :=
  match ph with Loaded => true | _ => false end.

(** Along the states [ps], [isPlaying] holds only once [isLoading] has been
    true and has become false again. *)
Fixpoint playsOnlyAfterLoading (ph : Phase) (ps : list RangePlayer.Player)
  : bool :=
  match ps with
  | [] => true
  | p :: ps' =>
      let ph' := advance ph p in
      implb (RangePlayer.isPlaying p) (isLoaded ph')
      && playsOnlyAfterLoading ph' ps'
  end.

(** *** The response that settled last *)

Fixpoint lastMetadata (evs : list RangePlayer.Event)
  (m : option AudioFetcher.AudioMetadata)
  : option AudioFetcher.AudioMetadata :=
  match evs with
  | [] => m
  | RangePlayer.MetadataSettled _ (Ok metadata) :: evs' =>
      lastMetadata evs' (Some metadata)
  | _ :: evs' => lastMetadata evs' m
  end.

Fixpoint lastDuration (evs : list RangePlayer.Event) (d : Q) : Q :=
  match evs with
  | [] => d
  | RangePlayer.MetadataSettled _ (Ok metadata) :: evs' =>
      lastDuration evs' (AudioFetcher.duration metadata)
  | _ :: evs' => lastDuration evs' d
  end.

Fixpoint lastBlob (evs : list RangePlayer.Event) (u : string) : string :=
  match evs with
  | [] => u
  | RangePlayer.BlobSettled _ (Ok blobUrl) :: evs' => lastBlob evs' blobUrl
  | _ :: evs' => lastBlob evs' u
  end.

(** *** The end-to-end scenario of the specification

    Track list [a.mp3, b.mp3].  In [trackEnv d size] every resource reports
    [size] bytes, range support and a decodable duration of [d] seconds;
    requests that carry a [Range] header are answered 206. *)

Definition scenarioTracks : list string := ["a.mp3"; "b.mp3"].

Definition trackResponse (size : Z) (req : AudioFetcher.Request)
  : AudioFetcher.Response :=
  {| AudioFetcher.status :=
       match AudioFetcher.method req, AudioFetcher.rangeHeader req with
       | AudioFetcher.GET, Some _ => 206
       | _, _ => 200
       end;
     AudioFetcher.contentLengthHeader := Some size;
     AudioFetcher.contentTypeHeader := Some "audio/mpeg";
     AudioFetcher.acceptRangesHeader := Some "bytes";
     AudioFetcher.body := Ok [] |}.

Definition trackEnv (d : Q) (size : Z) : AudioFetcher.Env :=
  {| AudioFetcher.network := fun _ req => Ok (trackResponse size req);
     AudioFetcher.decodeAudioData := fun _ => Some d |}.

(** [a.mp3] reports 200 s and 5,000,000 bytes. *)
Definition scenarioEnv : AudioFetcher.Env := trackEnv 200 5000000.

(** What [getMetadata] finds for a track of the scenario. *)
Definition scenarioMetadata : AudioFetcher.AudioMetadata :=
  {| AudioFetcher.duration := 200%Q; AudioFetcher.size := 5000000;
     AudioFetcher.contentType := "audio/mpeg";
     AudioFetcher.acceptRanges := true |}.

(** The session once [a.mp3] is loaded. *)
Definition scenarioLoaded : Session.World :=
  Session.mount scenarioEnv scenarioTracks Session.start.

(** *** Requests and errors of the fetch client *)

(** The request [fetchRange] sends. *)
Definition rangeRequest (f : AudioFetcher.Fetcher) (audioPath : string)
  (range : AudioFetcher.RangeRequest) : AudioFetcher.Request :=
  {| AudioFetcher.method := AudioFetcher.GET;
     AudioFetcher.url := AudioFetcher.baseUrl f ++ "/" ++ audioPath;
     AudioFetcher.rangeHeader := Some (AudioFetcher.rangeHeaderOf range) |}.

(** A request for the whole resource: no [Range] header. *)
Definition fullRequest (f : AudioFetcher.Fetcher) (audioPath : string)
  : AudioFetcher.Request :=
  {| AudioFetcher.method := AudioFetcher.GET;
     AudioFetcher.url := AudioFetcher.baseUrl f ++ "/" ++ audioPath;
     AudioFetcher.rangeHeader := None |}.

(** The probe of [getMetadata]. *)
Definition probeRequest (f : AudioFetcher.Fetcher) (audioPath : string)
  : AudioFetcher.Request :=
  {| AudioFetcher.method := AudioFetcher.HEAD;
     AudioFetcher.url := AudioFetcher.baseUrl f ++ "/" ++ audioPath;
     AudioFetcher.rangeHeader := Some "bytes=0-1" |}.

(** The instance after one more request. *)
Definition sent (req : AudioFetcher.Request) (f : AudioFetcher.Fetcher)
  : AudioFetcher.Fetcher :=
  {| AudioFetcher.baseUrl := AudioFetcher.baseUrl f;
     AudioFetcher.cache := AudioFetcher.cache f;
     AudioFetcher.requests := AudioFetcher.requests f ++ [req];
     AudioFetcher.console := AudioFetcher.console f;
     AudioFetcher.objectURLs := AudioFetcher.objectURLs f |}.

(** The error of [fetchRange] for an observed status. *)
Definition rangeFetchError (st : Z) : string :=
  newError ("Range request failed: " ++ numberToString st).

(** Whatever a method does, the observation [obs] of the instance moves
    along [R] only. *)
Definition respects {A X : Type} (R : relation X)
  (obs : AudioFetcher.Fetcher -> X) (m : AudioFetcher.M A) : Prop :=
  forall f, R (obs f) (obs (snd (m f))).

(** The cached entries stay: the map only grows. *)
Definition grows : relation (gmap string AudioFetcher.AudioMetadata) :=
  fun c c' => forall k md, c !! k = Some md -> c' !! k = Some md.

(** A server without range support: every request is answered 200 with no
    [Accept-Ranges] header. *)
Definition noRangeEnv : AudioFetcher.Env :=
  {| AudioFetcher.network := fun _ _ =>
       Ok {| AudioFetcher.status := 200;
             AudioFetcher.contentLengthHeader := Some 5000000;
             AudioFetcher.contentTypeHeader := Some "audio/mpeg";
             AudioFetcher.acceptRangesHeader := None;
             AudioFetcher.body := Ok [] |};
     AudioFetcher.decodeAudioData := fun _ => Some 200%Q |}.

(** The client after [getMetadata("a.mp3")] against the server without
    range support. *)
Definition noRangeFetcher : AudioFetcher.Fetcher :=
  snd (AudioFetcher.getMetadata noRangeEnv "a.mp3" AudioFetcher.new).

(** A server that has nothing: every request is answered 404. *)
Definition notFoundResponse : AudioFetcher.Response :=
  {| AudioFetcher.status := 404;
     AudioFetcher.contentLengthHeader := None;
     AudioFetcher.contentTypeHeader := Some "text/plain";
     AudioFetcher.acceptRangesHeader := None;
     AudioFetcher.body := Ok [] |}.

Definition notFoundEnv : AudioFetcher.Env :=
  {| AudioFetcher.network := fun _ _ => Ok notFoundResponse;
     AudioFetcher.decodeAudioData := fun _ => None |}.

(** *** Schedules of the hook *)

(** What [getMetadata] finds for [b.mp3] in the schedules below. *)
Definition metadataB : AudioFetcher.AudioMetadata :=
  {| AudioFetcher.duration := 100%Q; AudioFetcher.size := 2000000;
     AudioFetcher.contentType := "audio/mpeg";
     AudioFetcher.acceptRanges := true |}.

Definition firstMiB : RangePlayer.Range :=
  {| RangePlayer.start := 0; RangePlayer.end_ := 1024 * 1024 |}.

(** The hook after its first effect: the audio element exists. *)
Definition mounted : RangePlayer.Player :=
  RangePlayer.step scenarioTracks RangePlayer.initial RangePlayer.Mount.

(** [a.mp3] is loading when [next()] moves to [b.mp3]; the responses for
    [b.mp3] settle first, those for [a.mp3] afterwards. *)
Definition staleSchedule : list RangePlayer.Event :=
  [ RangePlayer.TrackEffect;
    RangePlayer.Next;
    RangePlayer.TrackEffect;
    RangePlayer.MetadataSettled "b.mp3" (Ok metadataB);
    RangePlayer.BlobSettled "b.mp3" (Ok "blob:0");
    RangePlayer.MetadataSettled "a.mp3" (Ok scenarioMetadata);
    RangePlayer.BlobSettled "a.mp3" (Ok "blob:1") ].

(** A load of [trackPath] in which every fetch succeeds and the audio
    element reports [loadstart], then [canplay]. *)
Definition loadEvents (trackPath : string)
  (metadata : AudioFetcher.AudioMetadata) (blobUrl : string)
  : list RangePlayer.Event :=
  [ RangePlayer.TrackEffect;
    RangePlayer.MetadataSettled trackPath (Ok metadata);
    RangePlayer.BlobSettled trackPath (Ok blobUrl);
    RangePlayer.Loadstart;
    RangePlayer.PreloadSettled trackPath firstMiB (Ok []);
    RangePlayer.Canplay ].

(** [a.mp3] is loaded and paused. *)
Definition readyOnA : RangePlayer.Player :=
  RangePlayer.run scenarioTracks
    (loadEvents "a.mp3" scenarioMetadata "blob:0") mounted.

(** [next()], then the load of [b.mp3]. *)
Definition switchSchedule : list RangePlayer.Event :=
  RangePlayer.Next :: loadEvents "b.mp3" metadataB "blob:1".

(** *** Servers that fail *)

Definition failedToFetch : string := "TypeError: Failed to fetch".

(** The probe is answered, with range support; every [GET] is refused by
    the network. *)
Definition rangeFailEnv : AudioFetcher.Env :=
  {| AudioFetcher.network := fun _ req =>
       match AudioFetcher.method req with
       | AudioFetcher.HEAD => Ok (trackResponse 5000000 req)
       | AudioFetcher.GET => Err failedToFetch
       end;
     AudioFetcher.decodeAudioData := fun _ => Some 200%Q |}.

(** No range support, and the download of the whole resource is refused. *)
Definition fullFailEnv : AudioFetcher.Env :=
  {| AudioFetcher.network := fun hist req =>
       match AudioFetcher.method req, AudioFetcher.rangeHeader req with
       | AudioFetcher.GET, None => Err failedToFetch
       | _, _ => AudioFetcher.network noRangeEnv hist req
       end;
     AudioFetcher.decodeAudioData := fun _ => Some 200%Q |}.

(** The session once the audio element exists. *)
Definition mountedWorld : Session.World :=
  {| Session.player := mounted; Session.fetcher := AudioFetcher.new |}.

(** *** More requests of the fetch client *)

(** The request of [estimateDurationFromSize]: a [HEAD] with no [Range]
    header. *)
Definition estimateRequest (f : AudioFetcher.Fetcher) (audioPath : string)
  : AudioFetcher.Request :=
  {| AudioFetcher.method := AudioFetcher.HEAD;
     AudioFetcher.url := AudioFetcher.baseUrl f ++ "/" ++ audioPath;
     AudioFetcher.rangeHeader := None |}.

(** The range [getAudioDuration] fetches. *)
Definition firstMiBRequest : AudioFetcher.RangeRequest :=
  {| AudioFetcher.start := 0; AudioFetcher.end_ := Some MiB |}.


(** *** Commands to the audio element and to the URL registry *)

(** [audio.play()] or [audio.pause()]. *)
Definition isPlayCommand (c : RangePlayer.Call) : bool :=
  match c with
  | RangePlayer.AudioPlay | RangePlayer.AudioPause => true
  | _ => false
  end.

Definition isPlayPause (ev : RangePlayer.Event) : bool :=
  match ev with RangePlayer.PlayPause => true | _ => false end.

Definition isUnmount (ev : RangePlayer.Event) : bool :=
  match ev with RangePlayer.Unmount => true | _ => false end.

(** The URLs handed to [URL.revokeObjectURL], in order. *)
Fixpoint revoked (cs : list RangePlayer.Call) : list string :=
  match cs with
  | [] => []
  | RangePlayer.RevokeObjectURL u :: cs' => u :: revoked cs'
  | _ :: cs' => revoked cs'
  end.

(** A source that is an object URL is a handle to release. *)
Definition handleOf (s : string) : list string :=
  if RangePlayer.startsWithBlob s then [s] else [].

(** The handles a schedule hands to the hook. *)
Fixpoint handlesOf (evs : list RangePlayer.Event) : list string :=
  match evs with
  | [] => []
  | RangePlayer.BlobSettled _ (Ok blobUrl) :: evs' =>
      (handleOf blobUrl ++ handlesOf evs')%list
  | _ :: evs' => handlesOf evs'
  end.

(** The audio element of [mounted]. *)
Definition mountedAudio : RangePlayer.Audio :=
  {| RangePlayer.src := ""; RangePlayer.currentTime := 0%Q;
     RangePlayer.audioVolume := 1%Q; RangePlayer.preload := "metadata" |}.

(** *** The fetch client behind the proxy *)

(** What the handler's [GET] asks of the origin. *)
Definition originGet (base : option string) (path : list string)
  (range userAgent : option string) : Route.OriginRequest :=
  {| Route.method := AudioFetcher.GET;
     Route.url := Route.audioUrlOf base path;
     Route.range := Some (Route.orElse range "");
     Route.userAgent := Route.orElse userAgent "Vibetide-Audio-Player" |}.

(** What the handler's [HEAD] asks of the origin. *)
Definition originHead (base : option string) (path : list string)
  (userAgent : option string) : Route.OriginRequest :=
  {| Route.method := AudioFetcher.HEAD;
     Route.url := Route.audioUrlOf base path;
     Route.range := None;
     Route.userAgent := Route.orElse userAgent "Vibetide-Audio-Player" |}.

(** The bytes of a body. *)
Definition bytesOf (b : Route.Body) : list N :=
  match b with
  | Route.Text s => map N_of_ascii (list_ascii_of_string s)
  | Route.Buffer bytes => bytes
  | Route.NoBody => []
  end.

(** A [NextResponse] as the client's [fetch] sees it; a text body comes
    with the content type the platform gives it. *)
Definition toClient (r : Route.ProxyResponse) : AudioFetcher.Response :=
  {| AudioFetcher.status := Route.proxyStatus r;
     AudioFetcher.contentLengthHeader := Route.proxyContentLength r;
     AudioFetcher.contentTypeHeader :=
       match Route.proxyContentType r, Route.proxyBody r with
       | None, Route.Text _ => Some "text/plain;charset=UTF-8"
       | t, _ => t
       end;
     AudioFetcher.acceptRangesHeader := Route.proxyAcceptRanges r;
     AudioFetcher.body := Ok (bytesOf (Route.proxyBody r)) |}.

(** The browser whose requests to [/api/audio/...] reach the handlers:
    [router] is the platform's matching of [[...path]], [userAgent] the
    browser's header. *)
Definition proxyEnv (origin : Route.OriginRequest -> Result Route.OriginResponse)
  (base : option string) (router : string -> list string)
  (userAgent : option string) (decode : list N -> option Q)
  : AudioFetcher.Env :=
  {| AudioFetcher.network := fun _ req =>
       Ok (toClient
             match AudioFetcher.method req with
             | AudioFetcher.GET =>
                 Route.GET origin base (router (AudioFetcher.url req))
                   (AudioFetcher.rangeHeader req) userAgent
             | AudioFetcher.HEAD =>
                 Route.HEAD origin base (router (AudioFetcher.url req))
                   userAgent
             end);
     AudioFetcher.decodeAudioData := decode |}.

(** No request asks for a whole resource: every [GET] has a [Range]
    header. *)
Definition rangedOnly (reqs : list AudioFetcher.Request) : Prop :=
  Forall (fun req => AudioFetcher.method req = AudioFetcher.GET ->
                     AudioFetcher.rangeHeader req <> None) reqs.

(** Every cached metadata reports range support. *)
Definition allRanged (c : gmap string AudioFetcher.AudioMetadata) : Prop :=
  forall k md, c !! k = Some md -> AudioFetcher.acceptRanges md = true.

(** Requests without a whole-resource [GET] stay so. *)
Definition keepsRanged : relation (list AudioFetcher.Request) :=
  fun l l' => rangedOnly l -> rangedOnly l'.

(** *** The time display *)

(** Two digits for the seconds of a minute. *)
Definition twoDigits (secs : Z) : string :=
  (if secs <? 10 then "0" else "") ++ numberToString secs.

(** The numbers [0 .. n-1]. *)
Definition below (n : nat) : list Z := map Z.of_nat (seq 0 n).

(** *** Origins *)

(** An origin that serves three bytes, in part when asked for a range. *)
Definition partialOrigin (req : Route.OriginRequest)
  : Result Route.OriginResponse :=
  Ok (if Route.truthy (Route.range req)
      then {| Route.status := 206;
              Route.contentType := Some "audio/mpeg";
              Route.contentLength := Some 2;
              Route.contentRange := Some "bytes 0-1/3";
              Route.body := Ok [1%N; 2%N] |}
      else {| Route.status := 200;
              Route.contentType := Some "audio/mpeg";
              Route.contentLength := Some 3;
              Route.contentRange := None;
              Route.body := Ok [1%N; 2%N; 3%N] |}).

(** An origin that has nothing. *)
Definition emptyOrigin (req : Route.OriginRequest)
  : Result Route.OriginResponse :=
  Ok {| Route.status := 404; Route.contentType := None;
        Route.contentLength := None; Route.contentRange := None;
        Route.body := Ok [] |}.

(** The platform's matching of [/api/audio/audio/a.mp3]. *)
Definition scenarioRouter (u : string) : list string := ["audio"; "a.mp3"].

(** *** Resources of the Howler-based hook *)

(** The refs and what they refer to agree: the cleanup closes over the
    Howl of [soundRef], there is no interval without a Howl, the running
    intervals are that of [seekInterval], and no Howl but that of
    [soundRef] is loaded. *)
Definition tidy (h : HowlSession.Hook) : Prop :=
  HowlSession.effectSound h = HowlSession.howl h
  /\ (HowlSession.howl h = None -> HowlSession.seekInterval h = None)
  /\ HowlSession.running h = option_list (HowlSession.seekInterval h)
  /\ (HowlSession.loaded h = []
      \/ HowlSession.loaded h = option_list (HowlSession.howl h)).

(** * Properties *)

(** ** Printed integers and range keys *)

Lemma append_assoc3 (a b c : string) : (a ++ b) ++ c = a ++ (b ++ c).
Proof. induction a as [|x a IH]; simpl; [reflexivity | now rewrite IH]. Qed.

Lemma every_app P (s t : string) : every P (s ++ t) = every P s && every P t.
Proof.
  induction s as [|c s IH]; simpl; [reflexivity|].
  rewrite IH. now rewrite andb_assoc.
Qed.

Lemma every_weaken (P Q : ascii -> bool) s :
  (forall c, P c = true -> Q c = true) -> every P s = true -> every Q s = true.
Proof.
  intros HPQ. induction s as [|c s IH]; simpl; [trivial|].
  rewrite !andb_true_iff. intros [Hc Hs]. split; auto.
Qed.

(** The last character outside [P] cuts a string in one way only. *)
Lemma split_unique (P : ascii -> bool) (c1 c2 : ascii)
  (x1 x2 t1 t2 : string) :
  P c1 = false -> P c2 = false ->
  every P t1 = true -> every P t2 = true ->
  x1 ++ String c1 t1 = x2 ++ String c2 t2 ->
  x1 = x2 /\ c1 = c2 /\ t1 = t2.
Proof.
  intros H1 H2 Ht1 Ht2. revert x2.
  induction x1 as [|a x1 IH]; intros [|b x2]; simpl; intros E.
  - injection E as -> ->. auto.
  - injection E as -> ->. rewrite every_app in Ht1. simpl in Ht1.
    rewrite H2 in Ht1. rewrite andb_false_r in Ht1. discriminate.
  - injection E as -> <-. rewrite every_app in Ht2. simpl in Ht2.
    rewrite H1 in Ht2. rewrite andb_false_r in Ht2. discriminate.
  - injection E as -> E. destruct (IH _ E) as (-> & -> & ->). auto.
Qed.

Lemma uint_digits (d : uint) :
  every isDigit (NilEmpty.string_of_uint d) = true.
Proof. induction d; simpl; auto. Qed.

Lemma uint_nonempty (d : uint) : d <> Nil -> NilEmpty.string_of_uint d <> "".
Proof. destruct d; simpl; congruence. Qed.

Lemma numberToString_numeral (n : Z) : numeral (numberToString n).
Proof.
  unfold numberToString. destruct n as [|p|p]; simpl.
  - apply numeral_pos; [discriminate | reflexivity].
  - apply numeral_pos; [apply uint_nonempty, DecimalPos.Unsigned.to_uint_nonnil
                       | apply uint_digits].
  - apply numeral_neg; [apply uint_nonempty, DecimalPos.Unsigned.to_uint_nonnil
                       | apply uint_digits].
Qed.

Lemma numberToString_inj (a b : Z) :
  numberToString a = numberToString b -> a = b.
Proof.
  unfold numberToString. intros E. apply to_int_inj.
  assert (H : Some (Z.to_int a) = Some (Z.to_int b))
    by (rewrite <- !NilEmpty.isi; now rewrite E).
  now injection H.
Qed.

Lemma numeral_chars s : numeral s -> every isNumeralChar s = true.
Proof.
  assert (W : forall c, isDigit c = true -> isNumeralChar c = true)
    by (intros c Hc; unfold isNumeralChar; now rewrite Hc).
  intros [ds _ Hd | ds _ Hd]; simpl; eauto using every_weaken.
Qed.

Lemma digits_end ds : ds <> "" -> every isDigit ds = true -> endsWithDigit ds.
Proof.
  induction ds as [|c ds IH]; [congruence|]. intros _. simpl.
  rewrite andb_true_iff. intros [Hc Hds]. destruct ds as [|c' ds'].
  - exists "", c. auto.
  - destruct IH as (s' & d & E & Hd); [discriminate | assumption |].
    exists (String c s'), d. simpl. now rewrite <- E.
Qed.

Lemma endsWithDigit_app x s : endsWithDigit s -> endsWithDigit (x ++ s).
Proof.
  intros (s' & d & -> & Hd). exists (x ++ s'), d.
  now rewrite append_assoc3.
Qed.

Lemma numeral_end s : numeral s -> endsWithDigit s.
Proof.
  intros [ds Hne Hd | ds Hne Hd]; [now apply digits_end|].
  apply (endsWithDigit_app "-"). now apply digits_end.
Qed.

Lemma not_ends_with_dash x : ~ endsWithDigit (x ++ "-").
Proof.
  intros (s' & d & E & Hd).
  destruct (split_unique (fun _ => false) "-" d x s' "" "") as (_ & <- & _);
    auto.
  discriminate.
Qed.

(** A printed integer after a dash, behind a text that ends with a digit,
    is found again. *)
Lemma numeral_after_dash x1 x2 e1 e2 :
  endsWithDigit x1 -> endsWithDigit x2 -> numeral e1 -> numeral e2 ->
  x1 ++ String "-" e1 = x2 ++ String "-" e2 ->
  x1 = x2 /\ e1 = e2.
Proof.
  intros Hx1 Hx2 [d1 _ Hd1 | d1 _ Hd1] [d2 _ Hd2 | d2 _ Hd2] E.
  - destruct (split_unique isDigit "-" "-" x1 x2 d1 d2) as (-> & _ & ->); auto.
  - exfalso. change (x2 ++ String "-" (String "-" d2))
      with (x2 ++ ("-" ++ String "-" d2)) in E.
    rewrite <- append_assoc3 in E.
    destruct (split_unique isDigit "-" "-" x1 (x2 ++ "-") d1 d2)
      as (-> & _ & _); auto.
    now apply not_ends_with_dash in Hx1.
  - exfalso. change (x1 ++ String "-" (String "-" d1))
      with (x1 ++ ("-" ++ String "-" d1)) in E.
    rewrite <- append_assoc3 in E.
    destruct (split_unique isDigit "-" "-" (x1 ++ "-") x2 d1 d2)
      as (<- & _ & _); auto.
    now apply not_ends_with_dash in Hx2.
  - change (x1 ++ String "-" (String "-" d1))
      with (x1 ++ ("-" ++ String "-" d1)) in E.
    change (x2 ++ String "-" (String "-" d2))
      with (x2 ++ ("-" ++ String "-" d2)) in E.
    rewrite <- !append_assoc3 in E.
    destruct (split_unique isDigit "-" "-" (x1 ++ "-") (x2 ++ "-") d1 d2)
      as (E' & _ & ->); auto.
    destruct (split_unique (fun _ => false) "-" "-" x1 x2 "" "")
      as (-> & _ & _); auto.
Qed.

Lemma rangeKey_shape id r :
  RangePlayer.rangeKey id r =
  (id ++ String ":" (numberToString (RangePlayer.start r)))
    ++ String "-" (numberToString (RangePlayer.end_ r)).
Proof. unfold RangePlayer.rangeKey. now rewrite append_assoc3. Qed.

Lemma rangeKey_inj id1 id2 r1 r2 :
  RangePlayer.rangeKey id1 r1 = RangePlayer.rangeKey id2 r2 ->
  id1 = id2 /\ r1 = r2.
Proof.
  rewrite !rangeKey_shape. intros E.
  apply numeral_after_dash in E;
    try (apply numberToString_numeral);
    try (apply endsWithDigit_app, (endsWithDigit_app ":"), numeral_end,
         numberToString_numeral).
  destruct E as [E1 E2].
  apply (split_unique isNumeralChar) in E1;
    try reflexivity; try (apply numeral_chars, numberToString_numeral).
  destruct E1 as (-> & _ & E1).
  apply numberToString_inj in E1, E2.
  split; [reflexivity|]. destruct r1, r2; simpl in *; congruence.
Qed.

(** ** The range-presence cache *)

Lemma hasPreloaded_empty id r : RangePlayer.hasPreloaded ∅ id r = false.
Proof.
  unfold RangePlayer.hasPreloaded. apply bool_decide_eq_false. set_solver.
Qed.

Lemma hasPreloaded_mark_same s id r :
  RangePlayer.hasPreloaded (RangePlayer.markPreloaded s id r) id r = true.
Proof.
  unfold RangePlayer.hasPreloaded, RangePlayer.markPreloaded.
  apply bool_decide_eq_true. set_solver.
Qed.

Lemma hasPreloaded_mark_other s id r id' r' :
  (id', r') ≠ (id, r) ->
  RangePlayer.hasPreloaded (RangePlayer.markPreloaded s id r) id' r'
  = RangePlayer.hasPreloaded s id' r'.
Proof.
  intros Hne. unfold RangePlayer.hasPreloaded, RangePlayer.markPreloaded.
  apply bool_decide_ext. split; [|set_solver].
  intros [Hin|Hin]%elem_of_union; [|assumption].
  apply elem_of_singleton in Hin. apply rangeKey_inj in Hin as [-> ->].
  congruence.
Qed.

(** After one mark the check is true for the marked pair or for a pair that
    was there before, and for no other. *)
Lemma hasPreloaded_mark s id r id' r' :
  RangePlayer.hasPreloaded (RangePlayer.markPreloaded s id r) id' r' = true
  <-> (id', r') = (id, r) \/ RangePlayer.hasPreloaded s id' r' = true.
Proof.
  unfold RangePlayer.hasPreloaded, RangePlayer.markPreloaded.
  rewrite !bool_decide_eq_true, elem_of_union, elem_of_singleton. split.
  - intros [E|Hin]; [left | now right].
    apply rangeKey_inj in E as [-> ->]. reflexivity.
  - intros [E|Hin]; [left | now right]. now inversion E.
Qed.

(** One event: the set changes when a preload settles with success, by the
    pair the preload was for, and with no other event. *)
Lemma step_preloadedRanges (tracks : list string) (p : RangePlayer.Player)
  (ev : RangePlayer.Event) :
  RangePlayer.preloadedRanges (RangePlayer.step tracks p ev)
  = match ev with
    | RangePlayer.PreloadSettled t x (Ok _) =>
        RangePlayer.markPreloaded (RangePlayer.preloadedRanges p) t x
    | _ => RangePlayer.preloadedRanges p
    end.
Proof.
  destruct ev as [| | | |t [md|e]|t [u|e]|t x [b|e]|e| | | |t| | | | |t|v];
    cbn;
    unfold RangePlayer.loadTrack, RangePlayer.handlePlayPause,
      RangePlayer.handleSeek, RangePlayer.preloadRange;
    repeat match goal with
           | |- context [match RangePlayer.audioRef p with _ => _ end] =>
               destruct (RangePlayer.audioRef p)
           | |- context [match RangePlayer.metadataRef p with _ => _ end] =>
               destruct (RangePlayer.metadataRef p)
           | |- context [if ?b then _ else _] => destruct b
           end;
    reflexivity.
Qed.

(** Along a run the check is true for the pairs that were there at the start
    and for the pairs whose preload has settled with success. *)
Lemma run_hasPreloaded (tracks : list string) (evs : list RangePlayer.Event) :
  forall (p : RangePlayer.Player) id r,
    RangePlayer.hasPreloaded
      (RangePlayer.preloadedRanges (RangePlayer.run tracks evs p)) id r = true
    <-> RangePlayer.hasPreloaded (RangePlayer.preloadedRanges p) id r = true
        \/ exists b, RangePlayer.PreloadSettled id r (Ok b) ∈ evs.
Proof.
  induction evs as [|ev evs IH]; intros p id r.
  - cbn. split; [now left|]. intros [H|[b H]]; [exact H|].
    now apply elem_of_nil in H.
  - change (RangePlayer.run tracks (ev :: evs) p)
      with (RangePlayer.run tracks evs (RangePlayer.step tracks p ev)).
    rewrite IH, step_preloadedRanges. split.
    + intros [H|[b H]].
      * destruct ev as [| | | |t [md|e]|t [u|e]|t x [b|e]|e| | | |t| | | | |t|v];
          try (now left).
        apply hasPreloaded_mark in H as [E|H]; [|now left].
        inversion E; subst. right. exists b. apply list_elem_of_here.
      * right. exists b. now apply list_elem_of_further.
    + intros [H|[b H]].
      * left.
        destruct ev as [| | | |t [md|e]|t [u|e]|t x [b|e]|e| | | |t| | | | |t|v];
          try exact H.
        apply hasPreloaded_mark. now right.
      * apply elem_of_cons in H as [<-|H].
        -- left. apply hasPreloaded_mark. now left.
        -- right. now exists b.
Qed.

(** C9. The range-presence cache is exact-match membership on
    (track, start, end).  The set of a fresh hook answers false for every
    pair.  Once [r] is marked for [id] the check for [(id, r)] is true, and
    the check for any other pair [(id', r')] (another track, or another
    range, overlapping or not) answers what it answered before: false, when
    [(id, r)] is the only pair marked, until [(id', r')] is marked itself.
    Along any run of the hook from its first render the check for a pair is
    true exactly when a preload of that very pair has settled with success.
    At the hook, the marked pair is not fetched again while an unmarked pair
    still is. *)
Theorem C9_exact_match_membership (tracks : list string)
  (evs : list RangePlayer.Event) (s : gset string) (id id' : string)
  (r r' : RangePlayer.Range) (p : RangePlayer.Player) (bytes : list N) :
  (id', r') ≠ (id, r) ->
  RangePlayer.hasPreloaded ∅ id r = false
  /\ RangePlayer.hasPreloaded
       (RangePlayer.preloadedRanges RangePlayer.initial) id r = false
  /\ RangePlayer.hasPreloaded (RangePlayer.markPreloaded s id r) id r = true
  /\ RangePlayer.hasPreloaded (RangePlayer.markPreloaded s id r) id' r'
     = RangePlayer.hasPreloaded s id' r'
  /\ RangePlayer.hasPreloaded (RangePlayer.markPreloaded ∅ id r) id' r'
     = false
  /\ RangePlayer.hasPreloaded
       (RangePlayer.markPreloaded (RangePlayer.markPreloaded ∅ id r) id' r')
       id' r' = true
  /\ (let q := RangePlayer.run tracks evs RangePlayer.initial in
      (RangePlayer.hasPreloaded (RangePlayer.preloadedRanges q) id r = true
       <-> exists b, RangePlayer.PreloadSettled id r (Ok b) ∈ evs)
      /\ ((exists b, RangePlayer.PreloadSettled id r (Ok b) ∈ evs) ->
          RangePlayer.preloadRange id r q = q)
      /\ ((forall b, RangePlayer.PreloadSettled id r (Ok b) ∉ evs) ->
          RangePlayer.calls (RangePlayer.preloadRange id r q)
          = (RangePlayer.calls q
               ++ [RangePlayer.PreloadRange id
                     (RangePlayer.toRequest r)])%list))
  /\ (let p' := RangePlayer.preloadRange_settled id r (Ok bytes) p in
      RangePlayer.preloadRange id r p' = p'
      /\ (RangePlayer.hasPreloaded (RangePlayer.preloadedRanges p) id' r'
          = false ->
          RangePlayer.calls (RangePlayer.preloadRange id' r' p')
          = (RangePlayer.calls p'
               ++ [RangePlayer.PreloadRange id'
                     (RangePlayer.toRequest r')])%list))
  /\ (let q := RangePlayer.preloadRange_settled id r (Ok bytes)
                 RangePlayer.initial in
      RangePlayer.calls (RangePlayer.preloadRange id' r' q)
      = (RangePlayer.calls q
           ++ [RangePlayer.PreloadRange id'
                 (RangePlayer.toRequest r')])%list).
Proof.
  intros Hne.
  assert (Hrun : forall q,
    q = RangePlayer.run tracks evs RangePlayer.initial ->
    RangePlayer.hasPreloaded (RangePlayer.preloadedRanges q) id r = true
    <-> exists b, RangePlayer.PreloadSettled id r (Ok b) ∈ evs).
  { intros q ->. rewrite run_hasPreloaded. cbn [RangePlayer.initial
      RangePlayer.preloadedRanges]. rewrite hasPreloaded_empty.
    split; [intros [H|H]; [discriminate H | exact H] | now right]. }
  split; [apply hasPreloaded_empty|].
  split; [apply hasPreloaded_empty|].
  split; [apply hasPreloaded_mark_same|].
  split; [now apply hasPreloaded_mark_other|].
  split; [rewrite hasPreloaded_mark_other by assumption;
          apply hasPreloaded_empty|].
  split; [apply hasPreloaded_mark_same|].
  cbn zeta. split; [|split].
  - split; [now apply Hrun|]. unfold RangePlayer.preloadRange. split.
    + intros H. apply (Hrun _ eq_refl) in H. now rewrite H.
    + intros H.
      destruct (RangePlayer.hasPreloaded _ id r) eqn:E; [|reflexivity].
      apply (Hrun _ eq_refl) in E as [b E]. now destruct (H b).
  - split.
    + unfold RangePlayer.preloadRange. cbn [RangePlayer.preloadRange_settled
        RangePlayer.preloadedRanges RangePlayer.setPreloaded].
      now rewrite hasPreloaded_mark_same.
    + intros Hfresh. unfold RangePlayer.preloadRange.
      cbn [RangePlayer.preloadRange_settled RangePlayer.preloadedRanges
             RangePlayer.setPreloaded].
      rewrite hasPreloaded_mark_other by assumption. now rewrite Hfresh.
  - unfold RangePlayer.preloadRange.
    cbn [RangePlayer.preloadRange_settled RangePlayer.preloadedRanges
           RangePlayer.setPreloaded RangePlayer.initial].
    rewrite hasPreloaded_mark_other by assumption.
    now rewrite hasPreloaded_empty.
Qed.

(** Two overlapping windows of one track are two entries: with the first
    MiB marked, the check for its first 1048575 bytes is false. *)
Lemma C9_exact_match_membership_witness :
  let r := {| RangePlayer.start := 0; RangePlayer.end_ := 1048576 |} in
  let r' := {| RangePlayer.start := 0; RangePlayer.end_ := 1048575 |} in
  RangePlayer.hasPreloaded ∅ "a.mp3" r = false
  /\ RangePlayer.hasPreloaded (RangePlayer.markPreloaded ∅ "a.mp3" r)
       "a.mp3" r = true
  /\ RangePlayer.hasPreloaded (RangePlayer.markPreloaded ∅ "a.mp3" r)
       "a.mp3" r' = false.
Proof.
  intros r r'.
  destruct (C9_exact_match_membership scenarioTracks [] ∅ "a.mp3" "a.mp3"
              r r' RangePlayer.initial [])
    as (H1 & _ & H3 & _ & H5 & _).
  - intros H. inversion H.
  - split; [exact H1 | split; [exact H3 | exact H5]].
Defined.

(** ** Track switching *)

Lemma next_index_in_range (tracks : list string) (p : RangePlayer.Player) :
  0 <= RangePlayer.currentTrack p < Z.of_nat (length tracks) ->
  0 <= RangePlayer.currentTrack (RangePlayer.handleNext tracks p)
    < Z.of_nat (length tracks)
  /\ 0 <= RangePlayer.currentTrack (RangePlayer.handlePrev tracks p)
       < Z.of_nat (length tracks).
Proof.
  intros H. cbn. rewrite Z.rem_mod_nonneg by lia. split.
  - apply Z.mod_pos_bound. lia.
  - destruct (Z.eqb_spec (RangePlayer.currentTrack p) 0); lia.
Qed.

(** C10. On a non-empty track list of length [n], [next()] moves the index
    [i] to [(i + 1) mod n] (from the last track to 0), [previous()] moves it
    to [n - 1] when [i = 0] and to [i - 1] otherwise, and both set
    [isPlaying]; the two hooks agree on this. *)
Theorem C10_next_previous_wrap (tracks : list string)
  (p : RangePlayer.Player) (h : HowlPlayer.Player) (i : Z) :
  tracks ≠ [] -> 0 <= i ->
  RangePlayer.currentTrack p = i -> HowlPlayer.currentTrack h = i ->
  let n := Z.of_nat (length tracks) in
  (RangePlayer.currentTrack (RangePlayer.handleNext tracks p) = (i + 1) mod n
   /\ RangePlayer.isPlaying (RangePlayer.handleNext tracks p) = true
   /\ RangePlayer.currentTrack (RangePlayer.handlePrev tracks p)
      = (if i =? 0 then n - 1 else i - 1)
   /\ RangePlayer.isPlaying (RangePlayer.handlePrev tracks p) = true)
  /\ (HowlPlayer.currentTrack (HowlPlayer.handleNext tracks h) = (i + 1) mod n
      /\ HowlPlayer.isPlaying (HowlPlayer.handleNext tracks h) = true
      /\ HowlPlayer.currentTrack (HowlPlayer.handlePrev tracks h)
         = (if i =? 0 then n - 1 else i - 1)
      /\ HowlPlayer.isPlaying (HowlPlayer.handlePrev tracks h) = true)
  /\ (i = n - 1 ->
      RangePlayer.currentTrack (RangePlayer.handleNext tracks p) = 0
      /\ HowlPlayer.currentTrack (HowlPlayer.handleNext tracks h) = 0).
Proof.
  intros Hne Hi Hp Hh n.
  assert (Hn : 0 < n) by (destruct tracks; [congruence | cbn in *; lia]).
  cbn. rewrite Hp, Hh. fold n. rewrite Z.rem_mod_nonneg by lia.
  split; [|split]; [repeat split; reflexivity ..|].
  intros ->. replace (n - 1 + 1) with n by lia.
  rewrite Z.mod_same by lia. split; reflexivity.
Qed.

(** [next()] on the last of two tracks. *)
Lemma C10_next_previous_wrap_witness :
  RangePlayer.currentTrack
    (RangePlayer.handleNext scenarioTracks
       (RangePlayer.setCurrentTrack 1 RangePlayer.initial)) = 0
  /\ RangePlayer.currentTrack
       (RangePlayer.handlePrev scenarioTracks
          (RangePlayer.setCurrentTrack 1 RangePlayer.initial)) = 0.
Proof.
  destruct (C10_next_previous_wrap scenarioTracks
              (RangePlayer.setCurrentTrack 1 RangePlayer.initial)
              {| HowlPlayer.currentTrack := 1; HowlPlayer.isPlaying := false;
                 HowlPlayer.volume := 1%Q; HowlPlayer.duration := 0%Q;
                 HowlPlayer.seek := 0%Q; HowlPlayer.soundRef := None |} 1)
    as ((_ & _ & Hprev & _) & _ & Hlast).
  - discriminate.
  - lia.
  - reflexivity.
  - reflexivity.
  - split; [apply Hlast; reflexivity | exact Hprev].
Defined.

(** ** Seeking *)

Lemma handleSeek_seek (tracks : list string) (t : Q) (p : RangePlayer.Player)
  (a : RangePlayer.Audio) (md : AudioFetcher.AudioMetadata) :
  RangePlayer.audioRef p = Some a -> RangePlayer.metadataRef p = Some md ->
  RangePlayer.seek (RangePlayer.handleSeek tracks t p)
  = RangePlayer.seekTimeOf t p.
Proof.
  intros Ha Hm. unfold RangePlayer.handleSeek. now rewrite Ha, Hm.
Qed.

(** C8. On a loaded track, [seek(t)] sets the seek position to [t] clamped
    to [[0, duration]]: the result lies in the interval, is 0 for a negative
    target, the duration for a target beyond it, and the target itself
    otherwise. *)
Theorem C8_seek_clamped (tracks : list string) (t : Q)
  (p : RangePlayer.Player) (a : RangePlayer.Audio)
  (md : AudioFetcher.AudioMetadata) :
  RangePlayer.audioRef p = Some a -> RangePlayer.metadataRef p = Some md ->
  (0 <= RangePlayer.duration p)%Q ->
  let s := RangePlayer.seek (RangePlayer.handleSeek tracks t p) in
  s = Qmax 0 (Qmin t (RangePlayer.duration p))
  /\ (0 <= s)%Q /\ (s <= RangePlayer.duration p)%Q
  /\ ((t < 0)%Q -> s == 0)
  /\ ((RangePlayer.duration p < t)%Q -> s == RangePlayer.duration p)
  /\ ((0 <= t)%Q -> (t <= RangePlayer.duration p)%Q -> s == t).
Proof.
  intros Ha Hm Hd s. subst s. rewrite (handleSeek_seek _ _ _ _ _ Ha Hm).
  unfold RangePlayer.seekTimeOf. set (d := RangePlayer.duration p) in *.
  split; [reflexivity|]. split; [apply Q.le_max_l|].
  split; [apply Q.max_lub; [assumption | apply Q.le_min_r]|].
  split; [|split].
  - intros Ht. apply Q.max_l.
    apply Qle_trans with t; [apply Q.le_min_l | now apply Qlt_le_weak].
  - intros Ht. rewrite (Q.min_r t d) by now apply Qlt_le_weak.
    now apply Q.max_r.
  - intros H0 Ht. rewrite (Q.min_l t d) by assumption. now apply Q.max_r.
Qed.

(** [seek(-5)] and [seek(500)] on a track of 180 seconds. *)
Lemma C8_seek_clamped_witness :
  let p := Session.player
             (Session.mount (trackEnv 180 5000000) scenarioTracks
                Session.start) in
  RangePlayer.duration p = 180%Q
  /\ RangePlayer.seek (RangePlayer.handleSeek scenarioTracks (-5) p) = 0%Q
  /\ RangePlayer.seek (RangePlayer.handleSeek scenarioTracks 500 p) = 180%Q.
Proof.
  intros p. split; [reflexivity|]. split.
  - edestruct (C8_seek_clamped scenarioTracks (-5) p) as (H & _);
      [vm_compute; reflexivity | vm_compute; reflexivity
      | vm_compute; discriminate |].
    rewrite H. reflexivity.
  - edestruct (C8_seek_clamped scenarioTracks 500 p) as (H & _);
      [vm_compute; reflexivity | vm_compute; reflexivity
      | vm_compute; discriminate |].
    rewrite H. reflexivity.
Defined.

(** The window the seek handler asks for: the byte offset is taken to be
    one MiB per second of the (clamped, floored) target. *)
Lemma seekWindow_bounds (seekTime : Q) (size : Z) :
  let offset := Qfloor seekTime * MiB in
  RangePlayer.start (RangePlayer.seekWindow seekTime size)
  = Z.max 0 (offset - 512 * KiB)
  /\ RangePlayer.end_ (RangePlayer.seekWindow seekTime size)
     = Z.min size (offset + MiB).
Proof. unfold MiB, KiB. cbn. split; f_equal; lia. Qed.

(** Past [size / MiB + 1/2] seconds the window ends before it starts. *)
Lemma seekWindow_inverted (seekTime : Q) (size : Z) :
  0 <= size -> size + 512 * KiB <= Qfloor seekTime * MiB ->
  RangePlayer.end_ (RangePlayer.seekWindow seekTime size) = size
  /\ RangePlayer.end_ (RangePlayer.seekWindow seekTime size)
     <= RangePlayer.start (RangePlayer.seekWindow seekTime size).
Proof. unfold MiB, KiB. cbn. lia. Qed.

(** C1, at [seek(150)] on the 200-second, 5,000,000-byte track of the
    scenario: the handler asks for the window [156762112, 5000000] and the
    client sends [Range: bytes=156762112-5000000]; the window ends before it
    starts and does not contain byte 3,750,000 (150/200 of the file). *)
Theorem C1_seek_150_window :
  let w := scenarioLoaded in
  let w' := Session.seek scenarioEnv scenarioTracks 150 w in
  let r := RangePlayer.seekWindow
             (RangePlayer.seekTimeOf 150 (Session.player w)) 5000000 in
  RangePlayer.duration (Session.player w) = 200%Q
  /\ AudioFetcher.size <$> RangePlayer.metadataRef (Session.player w)
     = Some 5000000
  /\ RangePlayer.trackAt scenarioTracks
       (RangePlayer.currentTrack (Session.player w)) = "a.mp3"
  /\ AudioFetcher.requests (Session.fetcher w')
     = (AudioFetcher.requests (Session.fetcher w)
        ++ [{| AudioFetcher.method := AudioFetcher.GET;
               AudioFetcher.url := "/api/audio/a.mp3";
               AudioFetcher.rangeHeader :=
                 Some "bytes=156762112-5000000" |}])%list
  /\ r = {| RangePlayer.start := 156762112; RangePlayer.end_ := 5000000 |}
  /\ RangePlayer.end_ r < RangePlayer.start r
  /\ ~ (RangePlayer.start r <= 3750000 <= RangePlayer.end_ r).
Proof.
  vm_compute. repeat split; try reflexivity; intros [H _]; now apply H.
Qed.

(** ** The fetch client *)

Section Respected.
Context {X : Type} (R : relation X) `{!PreOrder R}.
Context (obs : AudioFetcher.Fetcher -> X).

Lemma respects_ret {A} (a : A) : respects R obs (mret a).
Proof. intros f. reflexivity. Qed.

Lemma respects_throw {A} (e : string) :
  respects R obs (AudioFetcher.throw (A := A) e).
Proof. intros f. reflexivity. Qed.

Lemma respects_settle {A} (r : Result A) :
  respects R obs (AudioFetcher.settle r).
Proof. intros f. reflexivity. Qed.

Lemma respects_this : respects R obs AudioFetcher.this.
Proof. intros f. reflexivity. Qed.

Lemma respects_resource (audioPath : string) :
  respects R obs (AudioFetcher.resource audioPath).
Proof. intros f. reflexivity. Qed.

Lemma respects_bind {A B} (m : AudioFetcher.M A)
  (k : A -> AudioFetcher.M B) :
  respects R obs m -> (forall a, respects R obs (k a)) ->
  respects R obs (m ≫= k).
Proof.
  intros Hm Hk f. unfold mbind, AudioFetcher.M_bind.
  specialize (Hm f). destruct (m f) as [[a|e] f1]; cbn in *.
  - etransitivity; [exact Hm | apply Hk].
  - assumption.
Qed.

Lemma respects_try_catch {A} (m : AudioFetcher.M A)
  (h : string -> AudioFetcher.M A) :
  respects R obs m -> (forall e, respects R obs (h e)) ->
  respects R obs (AudioFetcher.try_catch m h).
Proof.
  intros Hm Hh f. unfold AudioFetcher.try_catch.
  specialize (Hm f). destruct (m f) as [[a|e] f1]; cbn in *.
  - assumption.
  - etransitivity; [exact Hm | apply Hh].
Qed.
End Respected.

#[local] Instance grows_preorder : PreOrder grows.
Proof.
  split; [intros c k md H; exact H | intros a b c Hab Hbc k md H; auto].
Qed.

(** Steps through a method, given the facts [tac] knows about the calls it
    makes. *)
Ltac respects_with tac :=
  repeat first
    [ match goal with
      | |- PreOrder _ => typeclasses eauto
      | |- forall _, respects _ _ _ => intros ?
      end
    | apply respects_ret | apply respects_throw | apply respects_settle
    | apply respects_this | apply respects_resource
    | tac
    | apply respects_bind
    | apply respects_try_catch
    | match goal with
      | |- respects _ _ (if ?b then _ else _) => destruct b
      | |- respects _ _ (match ?x with _ => _ end) => destruct x
      end ].

(** *** The cache is touched by [getMetadata] and [clearCache] only *)

Lemma cache_fetch env req :
  respects eq AudioFetcher.cache (AudioFetcher.fetch env req).
Proof. intros f. reflexivity. Qed.

Lemma cache_console_log line :
  respects eq AudioFetcher.cache (AudioFetcher.console_log line).
Proof. intros f. reflexivity. Qed.

Lemma cache_createObjectURL b :
  respects eq AudioFetcher.cache (AudioFetcher.createObjectURL b).
Proof. intros f. reflexivity. Qed.

Ltac cache_prim :=
  first [ apply cache_fetch | apply cache_console_log
        | apply cache_createObjectURL ].

Lemma cache_fetchRange env audioPath range :
  respects eq AudioFetcher.cache
    (AudioFetcher.fetchRange env audioPath range).
Proof. unfold AudioFetcher.fetchRange. respects_with cache_prim. Qed.

Lemma cache_estimateDurationFromSize env audioPath :
  respects eq AudioFetcher.cache
    (AudioFetcher.estimateDurationFromSize env audioPath).
Proof.
  unfold AudioFetcher.estimateDurationFromSize. respects_with cache_prim.
Qed.

Lemma cache_getAudioDuration env audioPath :
  respects eq AudioFetcher.cache
    (AudioFetcher.getAudioDuration env audioPath).
Proof.
  unfold AudioFetcher.getAudioDuration.
  respects_with ltac:(first [ cache_prim | apply cache_fetchRange
                            | apply cache_estimateDurationFromSize ]).
Qed.

Lemma cache_preloadRange env audioPath range :
  respects eq AudioFetcher.cache
    (AudioFetcher.preloadRange env audioPath range).
Proof.
  unfold AudioFetcher.preloadRange.
  respects_with ltac:(first [ cache_prim | apply cache_fetchRange ]).
Qed.

Lemma cache_createRangeBlob env audioPath range :
  respects eq AudioFetcher.cache
    (AudioFetcher.createRangeBlob env audioPath range).
Proof.
  unfold AudioFetcher.createRangeBlob.
  respects_with ltac:(first [ cache_prim | apply cache_fetchRange ]).
Qed.


(** *** Stepping through a method *)

Lemma run_this {A} (k : AudioFetcher.Fetcher -> AudioFetcher.M A) f :
  (AudioFetcher.this ≫= k) f = k f f.
Proof. reflexivity. Qed.

Lemma run_resource {A} audioPath (k : string -> AudioFetcher.M A) f :
  (AudioFetcher.resource audioPath ≫= k) f
  = k (AudioFetcher.baseUrl f ++ "/" ++ audioPath) f.
Proof. reflexivity. Qed.

Lemma run_fetch {A} env req (k : AudioFetcher.Response -> AudioFetcher.M A) f :
  (AudioFetcher.fetch env req ≫= k) f
  = match AudioFetcher.network env (AudioFetcher.requests f) req with
    | Ok response => k response (sent req f)
    | Err e => (Err e, sent req f)
    end.
Proof.
  unfold mbind, AudioFetcher.M_bind, AudioFetcher.fetch, sent.
  now destruct (AudioFetcher.network env (AudioFetcher.requests f) req).
Qed.

Lemma run_bind {A B} (m : AudioFetcher.M A) (k : A -> AudioFetcher.M B) f :
  (m ≫= k) f = match m f with
               | (Ok a, f') => k a f'
               | (Err e, f') => (Err e, f')
               end.
Proof. reflexivity. Qed.

Lemma run_try_catch {A} (m : AudioFetcher.M A) h f :
  AudioFetcher.try_catch m h f = match m f with
                                 | (Ok a, f') => (Ok a, f')
                                 | (Err e, f') => h e f'
                                 end.
Proof. reflexivity. Qed.

(** *** [getMetadata] *)

Lemma getMetadata_cached env audioPath f md :
  AudioFetcher.cache f !! ("metadata:" ++ audioPath) = Some md ->
  AudioFetcher.getMetadata env audioPath f = (Ok md, f).
Proof.
  intros H. unfold AudioFetcher.getMetadata, mbind, AudioFetcher.M_bind,
    AudioFetcher.this. now rewrite H.
Qed.

(** A successful [getMetadata] leaves its result in the cache, and a call
    on an uncached path changes the cache, if at all, at that path's key. *)
Lemma getMetadata_uncached env audioPath f :
  AudioFetcher.cache f !! ("metadata:" ++ audioPath) = None ->
  (exists e f', AudioFetcher.getMetadata env audioPath f = (Err e, f')
                /\ AudioFetcher.cache f' = AudioFetcher.cache f)
  \/ (exists md f', AudioFetcher.getMetadata env audioPath f = (Ok md, f')
                    /\ AudioFetcher.cache f'
                       = <["metadata:" ++ audioPath := md]>
                           (AudioFetcher.cache f)).
Proof.
  intros H. unfold AudioFetcher.getMetadata. rewrite run_this, H.
  rewrite run_try_catch, run_resource, run_fetch.
  destruct (AudioFetcher.network env _ _) as [response|e].
  2:{ left. eexists _, _. split; [reflexivity|reflexivity]. }
  destruct (AudioFetcher.ok response).
  2:{ left. eexists _, _. split; [reflexivity|reflexivity]. }
  cbn [negb]. rewrite run_bind.
  pose proof (cache_getAudioDuration env audioPath
                (sent (probeRequest f audioPath) f)) as Hc.
  unfold probeRequest in Hc.
  destruct (AudioFetcher.getAudioDuration env audioPath _) as [[d|e] f2].
  - right. eexists _, _. split; [reflexivity|]. cbn in *. now rewrite <- Hc.
  - left. eexists _, _. split; [reflexivity|]. cbn in *. now rewrite <- Hc.
Qed.

Lemma getMetadata_ok_cached env audioPath f md f' :
  AudioFetcher.getMetadata env audioPath f = (Ok md, f') ->
  AudioFetcher.cache f' !! ("metadata:" ++ audioPath) = Some md.
Proof.
  intros E.
  destruct (AudioFetcher.cache f !! ("metadata:" ++ audioPath)) as [md0|]
    eqn:Hc.
  - rewrite (getMetadata_cached _ _ _ _ Hc) in E. congruence.
  - destruct (getMetadata_uncached env audioPath f Hc)
      as [(e & f1 & E1 & _)|(md1 & f1 & E1 & Hins)]; [congruence|].
    rewrite E1 in E. injection E as -> ->. rewrite Hins.
    apply lookup_insert_eq.
Qed.





(** *** [fetchRange] *)

Lemma fetchRange_run env audioPath range f :
  AudioFetcher.fetchRange env audioPath range f
  = let req := rangeRequest f audioPath range in
    match AudioFetcher.network env (AudioFetcher.requests f) req with
    | Ok response =>
        if negb (AudioFetcher.status response =? 206)
           && negb (AudioFetcher.status response =? 200)
        then (Err (rangeFetchError (AudioFetcher.status response)),
              sent req f)
        else (Ok response, sent req f)
    | Err e => (Err e, sent req f)
    end.
Proof.
  unfold AudioFetcher.fetchRange. rewrite run_resource, run_fetch.
  cbv zeta. unfold rangeRequest.
  destruct (AudioFetcher.network env _ _) as [response|e]; [|reflexivity].
  now destruct (negb _ && negb _).
Qed.

Lemma fetchRange_requests env audioPath range f :
  AudioFetcher.requests (snd (AudioFetcher.fetchRange env audioPath range f))
  = (AudioFetcher.requests f ++ [rangeRequest f audioPath range])%list.
Proof.
  rewrite fetchRange_run. cbv zeta.
  destruct (AudioFetcher.network env _ _) as [response|e]; [|reflexivity].
  now destruct (negb _ && negb _).
Qed.

Lemma preloadRange_requests env audioPath range f :
  AudioFetcher.requests
    (snd (AudioFetcher.preloadRange env audioPath range f))
  = (AudioFetcher.requests f ++ [rangeRequest f audioPath range])%list.
Proof.
  unfold AudioFetcher.preloadRange. rewrite run_bind.
  rewrite <- (fetchRange_requests env audioPath range f).
  now destruct (AudioFetcher.fetchRange env audioPath range f) as [[r|e] f'].
Qed.

(** With a response of status 200 or 206 [fetchRange] returns the response
    and [preloadRange] its body. *)
Lemma fetchRange_accepts env audioPath range f response :
  AudioFetcher.network env (AudioFetcher.requests f)
    (rangeRequest f audioPath range) = Ok response ->
  AudioFetcher.status response = 200 \/ AudioFetcher.status response = 206 ->
  AudioFetcher.fetchRange env audioPath range f
  = (Ok response, sent (rangeRequest f audioPath range) f).
Proof.
  intros Hnet Hst. rewrite fetchRange_run. cbv zeta. rewrite Hnet.
  now destruct Hst as [-> | ->].
Qed.

Lemma preloadRange_accepts env audioPath range f response :
  AudioFetcher.network env (AudioFetcher.requests f)
    (rangeRequest f audioPath range) = Ok response ->
  AudioFetcher.status response = 200 \/ AudioFetcher.status response = 206 ->
  AudioFetcher.preloadRange env audioPath range f
  = (AudioFetcher.body response, sent (rangeRequest f audioPath range) f).
Proof.
  intros Hnet Hst. unfold AudioFetcher.preloadRange.
  now rewrite run_bind, (fetchRange_accepts _ _ _ _ _ Hnet Hst).
Qed.

(** The error text determines the status it was made from. *)
Lemma rangeFetchError_inj (st st' : Z) :
  rangeFetchError st = rangeFetchError st' -> st = st'.
Proof.
  unfold rangeFetchError, newError. intros E.
  apply numberToString_inj.
  now apply (inj (String.append _)), (inj (String.append _)) in E.
Qed.

(** C6, as the code has it.  [fetchRange] sends one request.  When the
    transport answers with a response, [fetchRange] returns that response if
    its status is 200 or 206, and otherwise fails with the error that
    carries the observed status.  When the transport itself rejects, there
    is no status: [fetchRange] has no [try]/[catch] and fails with the
    transport's error as it is.  So it fails exactly when the transport
    rejects or answers with a status that is neither 200 nor 206. *)
Theorem C6_fetchRange_status (env : AudioFetcher.Env) (audioPath : string)
  (range : AudioFetcher.RangeRequest) (f : AudioFetcher.Fetcher) :
  let out := fst (AudioFetcher.fetchRange env audioPath range f) in
  match AudioFetcher.network env (AudioFetcher.requests f)
          (rangeRequest f audioPath range) with
  | Ok response =>
      let st := AudioFetcher.status response in
      ((st = 200 \/ st = 206) /\ out = Ok response)
      \/ (st <> 200 /\ st <> 206 /\ out = Err (rangeFetchError st)
          /\ forall st', out = Err (rangeFetchError st') -> st' = st)
  | Err e => out = Err e
  end
  /\ ((exists e, out = Err e)
      <-> match AudioFetcher.network env (AudioFetcher.requests f)
                  (rangeRequest f audioPath range) with
          | Ok response =>
              AudioFetcher.status response <> 200
              /\ AudioFetcher.status response <> 206
          | Err _ => True
          end)
  /\ AudioFetcher.requests (snd (AudioFetcher.fetchRange env audioPath range f))
     = (AudioFetcher.requests f ++ [rangeRequest f audioPath range])%list.
Proof.
  intros out. subst out. split; [|split; [|apply fetchRange_requests]].
  - rewrite fetchRange_run. cbv zeta.
    destruct (AudioFetcher.network env _ _) as [response|e]; [|reflexivity].
    cbv zeta.
    destruct (Z.eqb_spec (AudioFetcher.status response) 206) as [E6|N6];
      cbn [negb andb].
    + left. split; [now right | reflexivity].
    + destruct (Z.eqb_spec (AudioFetcher.status response) 200) as [E0|N0];
        cbn [negb].
      * left. split; [now left | reflexivity].
      * right. repeat split; try assumption.
        intros st' E. symmetry. apply rangeFetchError_inj.
        cbn [fst] in E. congruence.
  - rewrite fetchRange_run. cbv zeta.
    destruct (AudioFetcher.network env _ _) as [response|e].
    + destruct (Z.eqb_spec (AudioFetcher.status response) 206) as [E6|N6];
        cbn [negb andb fst].
      * split; [intros [e E]; discriminate E | intros [_ N]; now destruct N].
      * destruct (Z.eqb_spec (AudioFetcher.status response) 200) as [E0|N0];
          cbn [negb fst].
        -- split; [intros [e E]; discriminate E | intros [N _]; now destruct N].
        -- split; [now intros _ | intros _; now eexists].
    + cbn [fst]. split; [now intros _ | intros _; now eexists].
Qed.

(** A range of the scenario's track is answered 206 and returned; a server
    that answers 404 makes [fetchRange] fail with that status; a refused
    request makes it fail with the network's error. *)
Lemma C6_fetchRange_status_witness :
  let range := {| AudioFetcher.start := 0; AudioFetcher.end_ := Some 1023 |} in
  fst (AudioFetcher.fetchRange scenarioEnv "a.mp3" range AudioFetcher.new)
  = Ok (trackResponse 5000000 (rangeRequest AudioFetcher.new "a.mp3" range))
  /\ fst (AudioFetcher.fetchRange notFoundEnv "a.mp3" range AudioFetcher.new)
     = Err "Error: Range request failed: 404"
  /\ fst (AudioFetcher.fetchRange rangeFailEnv "a.mp3" range AudioFetcher.new)
     = Err "TypeError: Failed to fetch".
Proof.
  intros range. split; [|split].
  - destruct (C6_fetchRange_status scenarioEnv "a.mp3" range AudioFetcher.new)
      as [[[_ H]|(_ & H & _)] _].
    + exact H.
    + exfalso. now apply H.
  - destruct (C6_fetchRange_status notFoundEnv "a.mp3" range AudioFetcher.new)
      as [[[[H|H] _]|(_ & _ & H & _)] _].
    + discriminate H.
    + discriminate H.
    + exact H.
  - destruct (C6_fetchRange_status rangeFailEnv "a.mp3" range AudioFetcher.new)
      as [H _].
    exact H.
Defined.

(** C6, as stated, fails: for the range 0-1023 the network refuses the
    request, and [fetchRange] fails with the network's error, which is
    neither a response nor an error that carries a status; there is no
    transport status at all. *)
Lemma C6_transport_rejection_carries_no_status :
  let range := {| AudioFetcher.start := 0; AudioFetcher.end_ := Some 1023 |} in
  let out :=
    fst (AudioFetcher.fetchRange rangeFailEnv "a.mp3" range AudioFetcher.new) in
  (exists e, AudioFetcher.end_ range = Some e
             /\ 0 <= AudioFetcher.start range <= e)
  /\ AudioFetcher.network rangeFailEnv (AudioFetcher.requests AudioFetcher.new)
       (rangeRequest AudioFetcher.new "a.mp3" range)
     = Err "TypeError: Failed to fetch"
  /\ out = Err "TypeError: Failed to fetch"
  /\ (forall response, out <> Ok response)
  /\ (forall st, out <> Err (rangeFetchError st)).
Proof.
  cbv zeta. split; [exists 1023; cbn; split; [reflexivity | lia]|].
  split; [reflexivity|].
  split; [reflexivity|]. split.
  - intros response H. discriminate H.
  - intros st H. vm_compute in H. discriminate H.
Qed.

(** *** Range support and the [Range] header *)

Lemma createStreamingBlob_full env audioPath f md :
  AudioFetcher.cache f !! ("metadata:" ++ audioPath) = Some md ->
  AudioFetcher.acceptRanges md = false ->
  AudioFetcher.requests
    (snd (AudioFetcher.createStreamingBlob env audioPath f))
  = (AudioFetcher.requests f ++ [fullRequest f audioPath])%list.
Proof.
  intros Hc Hacc. unfold AudioFetcher.createStreamingBlob.
  rewrite run_try_catch, run_bind, (getMetadata_cached _ _ _ _ Hc), Hacc.
  cbn [negb]. rewrite run_resource, run_fetch. fold (fullRequest f audioPath).
  destruct (AudioFetcher.network env _ _) as [response|e]; [|reflexivity].
  rewrite run_bind. unfold AudioFetcher.settle.
  now destruct (AudioFetcher.body response).
Qed.

(** C2, as the code has it.  For a track whose cached metadata says that
    ranges are not supported, [createStreamingBlob] fetches the resource in
    full, with one request that has no [Range] header.  [fetchRange] and
    [preloadRange] do not consult the metadata: they send their [Range]
    header all the same, and they accept a full (200) response as well as a
    partial (206) one: [fetchRange] returns the response and [preloadRange]
    its body. *)
Theorem C2_full_fetch_in_createStreamingBlob (env : AudioFetcher.Env)
  (audioPath : string) (f : AudioFetcher.Fetcher)
  (range : AudioFetcher.RangeRequest) :
  (forall md,
      AudioFetcher.cache f !! ("metadata:" ++ audioPath) = Some md ->
      AudioFetcher.acceptRanges md = false ->
      AudioFetcher.requests
        (snd (AudioFetcher.createStreamingBlob env audioPath f))
      = (AudioFetcher.requests f ++ [fullRequest f audioPath])%list)
  /\ AudioFetcher.rangeHeader (fullRequest f audioPath) = None
  /\ AudioFetcher.requests
       (snd (AudioFetcher.fetchRange env audioPath range f))
     = (AudioFetcher.requests f ++ [rangeRequest f audioPath range])%list
  /\ AudioFetcher.requests
       (snd (AudioFetcher.preloadRange env audioPath range f))
     = (AudioFetcher.requests f ++ [rangeRequest f audioPath range])%list
  /\ AudioFetcher.rangeHeader (rangeRequest f audioPath range)
     = Some (AudioFetcher.rangeHeaderOf range)
  /\ (forall response,
        AudioFetcher.network env (AudioFetcher.requests f)
          (rangeRequest f audioPath range) = Ok response ->
        AudioFetcher.status response = 200
        \/ AudioFetcher.status response = 206 ->
        fst (AudioFetcher.fetchRange env audioPath range f) = Ok response
        /\ fst (AudioFetcher.preloadRange env audioPath range f)
           = AudioFetcher.body response).
Proof.
  split; [intros md Hc Hacc; now apply (createStreamingBlob_full env _ _ md)|].
  split; [reflexivity|]. split; [apply fetchRange_requests|].
  split; [apply preloadRange_requests|]. split; [reflexivity|].
  intros response Hnet Hst.
  now rewrite (fetchRange_accepts _ _ _ _ _ Hnet Hst),
    (preloadRange_accepts _ _ _ _ _ Hnet Hst).
Qed.

(** Against the server without range support: [createStreamingBlob] sends
    the request without a [Range] header, and the 200 that answers the
    range request of [fetchRange] and [preloadRange] is accepted. *)
Lemma C2_full_fetch_in_createStreamingBlob_witness :
  let range := {| AudioFetcher.start := 0; AudioFetcher.end_ := Some 1023 |} in
  AudioFetcher.requests
    (snd (AudioFetcher.createStreamingBlob noRangeEnv "a.mp3" noRangeFetcher))
  = (AudioFetcher.requests noRangeFetcher
     ++ [fullRequest noRangeFetcher "a.mp3"])%list
  /\ fst (AudioFetcher.fetchRange noRangeEnv "a.mp3" range noRangeFetcher)
     = Ok {| AudioFetcher.status := 200;
             AudioFetcher.contentLengthHeader := Some 5000000;
             AudioFetcher.contentTypeHeader := Some "audio/mpeg";
             AudioFetcher.acceptRangesHeader := None;
             AudioFetcher.body := Ok [] |}
  /\ fst (AudioFetcher.preloadRange noRangeEnv "a.mp3" range noRangeFetcher)
     = Ok [].
Proof.
  intros range.
  destruct (C2_full_fetch_in_createStreamingBlob noRangeEnv "a.mp3"
              noRangeFetcher range)
    as (H & _ & _ & _ & _ & Hacc).
  split.
  - apply (H {| AudioFetcher.duration := 200%Q; AudioFetcher.size := 5000000;
                AudioFetcher.contentType := "audio/mpeg";
                AudioFetcher.acceptRanges := false |}).
    + vm_compute. reflexivity.
    + reflexivity.
  - destruct (Hacc {| AudioFetcher.status := 200;
                      AudioFetcher.contentLengthHeader := Some 5000000;
                      AudioFetcher.contentTypeHeader := Some "audio/mpeg";
                      AudioFetcher.acceptRangesHeader := None;
                      AudioFetcher.body := Ok [] |})
      as [Hf Hp].
    + reflexivity.
    + now left.
    + split; [exact Hf | exact Hp].
Defined.

(** C2, as stated, fails: the cached metadata of [a.mp3] says that ranges
    are not supported, and [fetchRange] and [preloadRange] still send a
    [Range] header. *)
Lemma C2_fetchRange_sends_range_header :
  let range := {| AudioFetcher.start := 0; AudioFetcher.end_ := Some 1023 |} in
  (AudioFetcher.acceptRanges
     <$> AudioFetcher.cache noRangeFetcher !! "metadata:a.mp3") = Some false
  /\ last (AudioFetcher.requests
             (snd (AudioFetcher.fetchRange noRangeEnv "a.mp3" range
                     noRangeFetcher)))
     = Some {| AudioFetcher.method := AudioFetcher.GET;
               AudioFetcher.url := "/api/audio/a.mp3";
               AudioFetcher.rangeHeader := Some "bytes=0-1023" |}
  /\ last (AudioFetcher.requests
             (snd (AudioFetcher.preloadRange noRangeEnv "a.mp3" range
                     noRangeFetcher)))
     = Some {| AudioFetcher.method := AudioFetcher.GET;
               AudioFetcher.url := "/api/audio/a.mp3";
               AudioFetcher.rangeHeader := Some "bytes=0-1023" |}.
Proof. vm_compute. repeat split; reflexivity. Qed.

(** *** Probes *)

Lemma probes_sent req f :
  Session.probes (sent req f)
  = (Session.probes f + (if Session.isProbe req then 1 else 0))%nat.
Proof.
  unfold Session.probes, sent. cbn [AudioFetcher.requests].
  rewrite filter_app, length_app. f_equal.
  unfold filter at 1, list_filter. cbn.
  destruct (decide (Session.isProbe req = true)) as [->|N]; [reflexivity|].
  now destruct (Session.isProbe req).
Qed.

Lemma probes_fetch env req :
  Session.isProbe req = false ->
  respects eq Session.probes (AudioFetcher.fetch env req).
Proof.
  intros Hreq f. change (snd (AudioFetcher.fetch env req f)) with (sent req f).
  rewrite probes_sent, Hreq. lia.
Qed.

Lemma probes_console_log line :
  respects eq Session.probes (AudioFetcher.console_log line).
Proof. intros f. reflexivity. Qed.

Lemma probes_createObjectURL b :
  respects eq Session.probes (AudioFetcher.createObjectURL b).
Proof. intros f. reflexivity. Qed.

Lemma probes_cache_set k md :
  respects eq Session.probes (AudioFetcher.cache_set k md).
Proof. intros f. reflexivity. Qed.

Ltac probes_prim :=
  first [ apply probes_console_log | apply probes_createObjectURL
        | apply probes_cache_set | apply probes_fetch; reflexivity ].

Lemma probes_fetchRange env audioPath range :
  respects eq Session.probes (AudioFetcher.fetchRange env audioPath range).
Proof. unfold AudioFetcher.fetchRange. respects_with probes_prim. Qed.

Lemma probes_estimateDurationFromSize env audioPath :
  respects eq Session.probes
    (AudioFetcher.estimateDurationFromSize env audioPath).
Proof.
  unfold AudioFetcher.estimateDurationFromSize. respects_with probes_prim.
Qed.

Lemma probes_getAudioDuration env audioPath :
  respects eq Session.probes (AudioFetcher.getAudioDuration env audioPath).
Proof.
  unfold AudioFetcher.getAudioDuration.
  respects_with ltac:(first [ probes_prim | apply probes_fetchRange
                            | apply probes_estimateDurationFromSize ]).
Qed.

(** On an uncached path [getMetadata] sends its probe once, whatever comes
    of it. *)
Lemma probes_getMetadata_uncached env audioPath f :
  AudioFetcher.cache f !! ("metadata:" ++ audioPath) = None ->
  Session.probes (snd (AudioFetcher.getMetadata env audioPath f))
  = (Session.probes f + 1)%nat.
Proof.
  intros H. unfold AudioFetcher.getMetadata. rewrite run_this, H.
  rewrite run_try_catch, run_resource, run_fetch.
  fold (probeRequest f audioPath).
  rewrite <- (probes_sent (probeRequest f audioPath) f : _ = (_ + 1)%nat).
  destruct (AudioFetcher.network env _ _) as [response|e]; [|reflexivity].
  destruct (AudioFetcher.ok response); [|reflexivity].
  cbn [negb]. rewrite run_bind.
  rewrite (probes_getAudioDuration env audioPath
             (sent (probeRequest f audioPath) f)).
  now destruct (AudioFetcher.getAudioDuration env audioPath _) as [[d|e] f2].
Qed.




(** ** Loading a track *)

(** One event: the refs and [duration] change with the settling of a
    metadata or blob promise only, and then without a look at the track the
    promise was for. *)
Lemma step_refs (tracks : list string) (p : RangePlayer.Player)
  (a : RangePlayer.Audio) (ev : RangePlayer.Event) :
  RangePlayer.audioRef p = Some a ->
  RangePlayer.metadataRef (RangePlayer.step tracks p ev)
  = lastMetadata [ev] (RangePlayer.metadataRef p)
  /\ RangePlayer.duration (RangePlayer.step tracks p ev)
     = lastDuration [ev] (RangePlayer.duration p)
  /\ exists a', RangePlayer.audioRef (RangePlayer.step tracks p ev) = Some a'
                /\ RangePlayer.src a' = lastBlob [ev] (RangePlayer.src a).
Proof.
  intros Ha.
  destruct ev as [| | | |t [md|e]|t [u|e]|t r [b|e]|e| | | |t| | | | |t|v];
    cbn;
    unfold RangePlayer.loadTrack, RangePlayer.handlePlayPause,
      RangePlayer.handleSeek, RangePlayer.preloadRange;
    rewrite ?Ha; cbn;
    repeat match goal with
           | |- context [if ?b then _ else _] => destruct b
           | |- context [match RangePlayer.metadataRef p with _ => _ end] =>
               destruct (RangePlayer.metadataRef p) eqn:Hm
           end;
    cbn; rewrite ?Ha, ?Hm; eauto.
Qed.

(** C3, as the code has it.  No guard is applied after an [await]: along
    any schedule, the cached metadata reference and [duration] are those of
    the metadata response that settled last, and the audio source is the
    streaming handle that settled last, whichever track they were for. *)
Theorem C3_last_response_wins (tracks : list string)
  (evs : list RangePlayer.Event) (p : RangePlayer.Player)
  (a : RangePlayer.Audio) :
  RangePlayer.audioRef p = Some a ->
  let p' := RangePlayer.run tracks evs p in
  RangePlayer.metadataRef p' = lastMetadata evs (RangePlayer.metadataRef p)
  /\ RangePlayer.duration p' = lastDuration evs (RangePlayer.duration p)
  /\ RangePlayer.src <$> RangePlayer.audioRef p'
     = Some (lastBlob evs (RangePlayer.src a)).
Proof.
  revert p a. induction evs as [|ev evs IH]; intros p a Ha.
  - cbn. now rewrite Ha.
  - destruct (step_refs tracks p a ev Ha) as (Hm & Hd & a' & Ha' & Hs).
    specialize (IH (RangePlayer.step tracks p ev) a' Ha').
    cbn zeta in *. change (RangePlayer.run tracks (ev :: evs) p)
      with (RangePlayer.run tracks evs (RangePlayer.step tracks p ev)).
    destruct IH as (IHm & IHd & IHs). rewrite IHm, IHd, IHs, Hm, Hd, Hs.
    destruct ev as [| | | |t [md|e]|t [u|e]|t r [b|e]|e| | | |t| | | | |t|v];
      repeat split; reflexivity.
Qed.

(** The responses for [b.mp3] settle before those for [a.mp3]. *)
Lemma C3_last_response_wins_witness :
  let p := RangePlayer.run scenarioTracks staleSchedule mounted in
  RangePlayer.metadataRef p = Some scenarioMetadata
  /\ RangePlayer.duration p = 200%Q
  /\ RangePlayer.src <$> RangePlayer.audioRef p = Some "blob:1".
Proof.
  intros p.
  edestruct (C3_last_response_wins scenarioTracks staleSchedule mounted)
    as (Hm & Hd & Hs).
  - reflexivity.
  - split; [exact Hm | split; [exact Hd | exact Hs]].
Defined.

(** C3, as stated, fails: [next()] has moved to [b.mp3], both loads have
    resolved, and duration, metadata and audio source are those of
    [a.mp3]. *)
Lemma C3_stale_response_overwrites :
  let p := RangePlayer.run scenarioTracks staleSchedule mounted in
  RangePlayer.trackAt scenarioTracks (RangePlayer.currentTrack p) = "b.mp3"
  /\ RangePlayer.metadataRef p = Some scenarioMetadata
  /\ RangePlayer.metadataRef p <> Some metadataB
  /\ RangePlayer.duration p = AudioFetcher.duration scenarioMetadata
  /\ RangePlayer.duration p <> AudioFetcher.duration metadataB
  /\ RangePlayer.src <$> RangePlayer.audioRef p = Some "blob:1"
  /\ RangePlayer.src <$> RangePlayer.audioRef p <> Some "blob:0".
Proof. vm_compute. repeat split; discriminate. Qed.

(** [loadTrack], where the audio element exists: the sequence of its
    synchronous beginning. *)
Lemma loadTrack_begins (trackPath : string) (p : RangePlayer.Player)
  (a : RangePlayer.Audio) :
  RangePlayer.audioRef p = Some a ->
  let p' := RangePlayer.loadTrack trackPath p in
  RangePlayer.seek p' = 0%Q /\ RangePlayer.isLoading p' = true
  /\ RangePlayer.error p' = None
  /\ RangePlayer.isPlaying p' = RangePlayer.isPlaying p
  /\ RangePlayer.audioRef p' = Some a.
Proof.
  intros Ha. unfold RangePlayer.loadTrack. rewrite Ha. cbn.
  repeat split; assumption.
Qed.

(** The continuations of a successful load touch neither [isPlaying] nor
    [isLoading] nor [seek]. *)
Lemma load_success_keeps (trackPath : string)
  (md : AudioFetcher.AudioMetadata) (blobUrl : string)
  (p : RangePlayer.Player) (a : RangePlayer.Audio) :
  RangePlayer.audioRef p = Some a ->
  let p' := RangePlayer.loadTrack_blob trackPath (Ok blobUrl)
              (RangePlayer.loadTrack_metadata trackPath (Ok md) p) in
  RangePlayer.isPlaying p' = RangePlayer.isPlaying p
  /\ RangePlayer.isLoading p' = RangePlayer.isLoading p
  /\ RangePlayer.seek p' = RangePlayer.seek p
  /\ RangePlayer.error p' = RangePlayer.error p.
Proof.
  intros Ha. unfold RangePlayer.loadTrack_blob. cbn. rewrite Ha.
  unfold RangePlayer.preloadRange.
  repeat match goal with
         | |- context [if ?b then _ else _] => destruct b
         end; cbn; repeat split; reflexivity.
Qed.

(** C4, as the code has it.  [next()] sets [isPlaying] at once, in the
    handler that moves the index; the load that the track effect then starts
    resets the seek position to 0 and sets [isLoading]; the successful
    continuations of the load leave [isLoading] set, and it is the audio
    element's [canplay] that clears it, [isPlaying] being true all along. *)
Theorem C4_next_plays_before_loading (tracks : list string)
  (p : RangePlayer.Player) (a : RangePlayer.Audio)
  (md : AudioFetcher.AudioMetadata) (blobUrl : string) :
  RangePlayer.audioRef p = Some a ->
  let p1 := RangePlayer.step tracks p RangePlayer.Next in
  let trackPath := RangePlayer.trackAt tracks (RangePlayer.currentTrack p1) in
  let p2 := RangePlayer.step tracks p1 RangePlayer.TrackEffect in
  let p3 := RangePlayer.run tracks
              [RangePlayer.MetadataSettled trackPath (Ok md);
               RangePlayer.BlobSettled trackPath (Ok blobUrl)] p2 in
  let p4 := RangePlayer.run tracks
              [RangePlayer.Loadstart; RangePlayer.Canplay] p3 in
  (RangePlayer.isPlaying p1 = true
   /\ RangePlayer.isLoading p1 = RangePlayer.isLoading p
   /\ RangePlayer.seek p1 = RangePlayer.seek p)
  /\ (RangePlayer.isPlaying p2 = true /\ RangePlayer.isLoading p2 = true
      /\ RangePlayer.seek p2 = 0%Q /\ RangePlayer.error p2 = None)
  /\ (RangePlayer.isPlaying p3 = true /\ RangePlayer.isLoading p3 = true
      /\ RangePlayer.seek p3 = 0%Q)
  /\ (RangePlayer.isPlaying p4 = true /\ RangePlayer.isLoading p4 = false
      /\ RangePlayer.seek p4 = 0%Q).
Proof.
  intros Ha p1 trackPath p2 p3 p4.
  assert (Ha1 : RangePlayer.audioRef p1 = Some a) by exact Ha.
  pose proof (loadTrack_begins trackPath p1 a Ha1) as H2. cbv zeta in H2.
  change (RangePlayer.loadTrack trackPath p1) with p2 in H2.
  destruct H2 as (Hs2 & Hl2 & He2 & Hp2 & Ha2).
  pose proof (load_success_keeps trackPath md blobUrl p2 a Ha2) as H3.
  cbv zeta in H3.
  change (RangePlayer.loadTrack_blob trackPath (Ok blobUrl)
            (RangePlayer.loadTrack_metadata trackPath (Ok md) p2))
    with p3 in H3.
  destruct H3 as (Hp3 & Hl3 & Hs3 & _).
  assert (Hp1 : RangePlayer.isPlaying p1 = true) by reflexivity.
  assert (H4 : RangePlayer.isPlaying p4 = RangePlayer.isPlaying p3
               /\ RangePlayer.isLoading p4 = false
               /\ RangePlayer.seek p4 = RangePlayer.seek p3)
    by (repeat split; reflexivity).
  destruct H4 as (Hp4 & Hl4 & Hs4).
  rewrite Hp1 in Hp2. rewrite Hp2 in Hp3. rewrite Hp3 in Hp4.
  rewrite Hl2 in Hl3. rewrite Hs2 in Hs3. rewrite Hs3 in Hs4.
  split; [repeat split; reflexivity|].
  split; [repeat split; assumption|].
  split; repeat split; assumption.
Qed.

(** [next()] from [a.mp3], loaded and paused. *)
Lemma C4_next_plays_before_loading_witness :
  let p1 := RangePlayer.step scenarioTracks readyOnA RangePlayer.Next in
  let p2 := RangePlayer.step scenarioTracks p1 RangePlayer.TrackEffect in
  RangePlayer.isPlaying readyOnA = false
  /\ RangePlayer.isPlaying p1 = true
  /\ RangePlayer.isLoading p1 = false
  /\ RangePlayer.isLoading p2 = true.
Proof.
  intros p1 p2.
  edestruct (C4_next_plays_before_loading scenarioTracks readyOnA)
    as ((H1 & H1' & _) & (_ & H2 & _) & _).
  - reflexivity.
  - split; [reflexivity|]. split; [exact H1|].
    split; [exact (eq_trans H1' eq_refl) | exact H2].
  Unshelve. exact metadataB. exact "blob:1".
Defined.

(** C4, as stated, fails: [a.mp3] is loaded and paused, [next()] is
    called and every fetch for [b.mp3] succeeds; [isPlaying] is true in the
    state right after [next()], where [isLoading] has not yet been true. *)
Lemma C4_playing_before_loading :
  let ps := RangePlayer.states scenarioTracks switchSchedule readyOnA in
  RangePlayer.isPlaying readyOnA = false
  /\ RangePlayer.isLoading readyOnA = false
  /\ playsOnlyAfterLoading BeforeLoading (tail ps) = false
  /\ RangePlayer.isPlaying <$> ps !! 1%nat = Some true
  /\ RangePlayer.isLoading <$> ps !! 1%nat = Some false
  /\ RangePlayer.isLoading <$> ps !! 2%nat = Some true
  /\ (let p := RangePlayer.run scenarioTracks switchSchedule readyOnA in
      RangePlayer.currentTrack p = 1 /\ RangePlayer.error p = None
      /\ RangePlayer.isLoading p = false /\ RangePlayer.seek p = 0%Q
      /\ RangePlayer.metadataRef p = Some metadataB).
Proof. vm_compute. repeat split; reflexivity. Qed.

(** The hook's [preloadRange] swallows the failure of the fetch. *)
Lemma preloadRange_settled_err (trackPath : string) (range : RangePlayer.Range)
  (e : string) (p : RangePlayer.Player) :
  let p' := RangePlayer.preloadRange_settled trackPath range (Err e) p in
  RangePlayer.error p' = RangePlayer.error p
  /\ RangePlayer.isLoading p' = RangePlayer.isLoading p
  /\ RangePlayer.preloadedRanges p' = RangePlayer.preloadedRanges p
  /\ RangePlayer.calls p'
     = (RangePlayer.calls p
        ++ [RangePlayer.ConsoleWarn ("Failed to preload range: " ++ e)])%list.
Proof. cbn. repeat split; reflexivity. Qed.

(** C5, as the code has it.  A failure of the metadata fetch or of the
    creation of the streaming handle puts its message, behind "Failed to
    load track: ", in [error] and clears [isLoading].  A failure of the
    initial preload is caught in the hook's [preloadRange]: it is logged as
    a warning, [error] stays empty, [isLoading] stays as the load set it,
    and the range is not marked. *)
Theorem C5_load_failures (env : AudioFetcher.Env) (trackPath : string)
  (w : Session.World) (a : RangePlayer.Audio) :
  RangePlayer.audioRef (Session.player w) = Some a ->
  let p' := Session.player (Session.loadTrack env trackPath w) in
  (forall e,
      fst (AudioFetcher.getMetadata env trackPath (Session.fetcher w))
      = Err e ->
      RangePlayer.error p' = Some ("Failed to load track: " ++ e)
      /\ RangePlayer.isLoading p' = false)
  /\ (forall md f1 e,
         AudioFetcher.getMetadata env trackPath (Session.fetcher w)
         = (Ok md, f1) ->
         fst (AudioFetcher.createStreamingBlob env trackPath f1) = Err e ->
         RangePlayer.error p' = Some ("Failed to load track: " ++ e)
         /\ RangePlayer.isLoading p' = false)
  /\ (forall md f1 blobUrl f2 e,
         AudioFetcher.getMetadata env trackPath (Session.fetcher w)
         = (Ok md, f1) ->
         AudioFetcher.createStreamingBlob env trackPath f1
         = (Ok blobUrl, f2) ->
         RangePlayer.hasPreloaded
           (RangePlayer.preloadedRanges (Session.player w)) trackPath firstMiB
         = false ->
         fst (AudioFetcher.preloadRange env trackPath
                (RangePlayer.toRequest firstMiB) f2) = Err e ->
         RangePlayer.error p' = None
         /\ RangePlayer.isLoading p' = true
         /\ last (RangePlayer.calls p')
            = Some (RangePlayer.ConsoleWarn ("Failed to preload range: " ++ e))
         /\ RangePlayer.hasPreloaded (RangePlayer.preloadedRanges p')
              trackPath firstMiB = false).
Proof.
  intros Ha p'. subst p'. unfold Session.loadTrack. rewrite Ha.
  split; [|split].
  - intros e He.
    destruct (AudioFetcher.getMetadata env trackPath (Session.fetcher w))
      as [r1 f1]. cbn in He. subst r1. cbn. split; reflexivity.
  - intros md f1 e E1 He. rewrite E1.
    destruct (AudioFetcher.createStreamingBlob env trackPath f1) as [r2 f2].
    cbn in He. subst r2. cbn. split; reflexivity.
  - intros md f1 blobUrl f2 e E1 E2 Hfresh He. rewrite E1, E2.
    destruct w as [p f]. cbn [Session.player Session.fetcher] in *.
    unfold Session.preloadRange, RangePlayer.loadTrack. rewrite Ha.
    cbn -[RangePlayer.hasPreloaded firstMiB RangePlayer.toRequest
          RangePlayer.preloadRange_settled RangePlayer.loadTrack_blob].
    fold firstMiB. rewrite Hfresh. cbn [negb].
    destruct (AudioFetcher.preloadRange env trackPath
                (RangePlayer.toRequest firstMiB) f2) as [r3 f3].
    cbn [fst] in He. subst r3. cbn [Session.player].
    unfold RangePlayer.loadTrack_blob, RangePlayer.preloadRange.
    cbn -[RangePlayer.hasPreloaded firstMiB RangePlayer.toRequest negb andb
          String.eqb RangePlayer.startsWithBlob].
    rewrite Ha.
    destruct (negb _ && _);
    cbn -[RangePlayer.hasPreloaded firstMiB RangePlayer.toRequest];
    fold firstMiB; rewrite Hfresh;
    cbn -[RangePlayer.hasPreloaded firstMiB RangePlayer.toRequest];
    rewrite last_snoc; repeat split; try reflexivity; assumption.
Qed.

(** The three steps, each failing in turn: the probe is answered 404; the
    download of the whole resource is refused; the preload is refused. *)
Lemma C5_load_failures_witness :
  (let p := Session.player
              (Session.loadTrack notFoundEnv "a.mp3" mountedWorld) in
   RangePlayer.error p
   = Some "Failed to load track: Error: Failed to fetch metadata: 404"
   /\ RangePlayer.isLoading p = false)
  /\ (let p := Session.player
                 (Session.loadTrack fullFailEnv "a.mp3" mountedWorld) in
      RangePlayer.error p
      = Some "Failed to load track: TypeError: Failed to fetch"
      /\ RangePlayer.isLoading p = false)
  /\ (let p := Session.player
                 (Session.loadTrack rangeFailEnv "a.mp3" mountedWorld) in
      RangePlayer.error p = None /\ RangePlayer.isLoading p = true).
Proof.
  split; [|split].
  - edestruct (C5_load_failures notFoundEnv "a.mp3" mountedWorld)
      as (H & _ & _); [reflexivity|].
    apply (H "Error: Failed to fetch metadata: 404"). reflexivity.
  - edestruct (C5_load_failures fullFailEnv "a.mp3" mountedWorld)
      as (_ & H & _); [reflexivity|].
    eapply (H _ _ failedToFetch); [reflexivity | reflexivity].
  - edestruct (C5_load_failures rangeFailEnv "a.mp3" mountedWorld)
      as (_ & _ & H); [reflexivity|].
    edestruct H as (He & Hl & _);
      [ reflexivity | reflexivity | reflexivity | reflexivity
      | split; [exact He | exact Hl] ].
Defined.

(** C5, as stated, fails: the initial preload of [a.mp3] is refused by the
    network; the hook logs a warning, [error] stays empty and [isLoading]
    stays set. *)
Lemma C5_preload_failure_not_surfaced :
  let w := Session.mount rangeFailEnv scenarioTracks Session.start in
  let p := Session.player w in
  fst (AudioFetcher.preloadRange rangeFailEnv "a.mp3"
         (RangePlayer.toRequest firstMiB) (Session.fetcher w))
  = Err failedToFetch
  /\ last (RangePlayer.calls p)
     = Some (RangePlayer.ConsoleWarn
               "Failed to preload range: TypeError: Failed to fetch")
  /\ RangePlayer.error p = None
  /\ RangePlayer.isLoading p = true.
Proof. vm_compute. repeat split; reflexivity. Qed.

(** ** Duration *)

Lemma estimateDurationFromSize_run env audioPath f :
  AudioFetcher.estimateDurationFromSize env audioPath f
  = (Ok match AudioFetcher.network env (AudioFetcher.requests f)
                 (estimateRequest f audioPath) with
        | Ok response =>
            match AudioFetcher.contentLengthHeader response with
            | Some n => (inject_Z (n * 8) / inject_Z (128 * 1000))%Q
            | None => 0%Q
            end
        | Err _ => 0%Q
        end,
     sent (estimateRequest f audioPath) f).
Proof.
  unfold AudioFetcher.estimateDurationFromSize.
  rewrite run_try_catch, run_resource, run_fetch.
  fold (estimateRequest f audioPath).
  destruct (AudioFetcher.network env _ _) as [response|e]; [|reflexivity].
  now destruct (AudioFetcher.contentLengthHeader response).
Qed.

(** X1. [estimateDurationFromSize] never fails and sends one [HEAD]
    request without a [Range] header; its result is 0 when the request is
    refused and when the answer reports no length. *)
Theorem X1_estimate_never_fails (env : AudioFetcher.Env)
  (audioPath : string) (f : AudioFetcher.Fetcher) :
  exists d,
    AudioFetcher.estimateDurationFromSize env audioPath f
    = (Ok d, sent (estimateRequest f audioPath) f)
    /\ AudioFetcher.method (estimateRequest f audioPath) = AudioFetcher.HEAD
    /\ AudioFetcher.rangeHeader (estimateRequest f audioPath) = None
    /\ ((forall response,
            AudioFetcher.network env (AudioFetcher.requests f)
              (estimateRequest f audioPath) = Ok response ->
            AudioFetcher.contentLengthHeader response = None) ->
        d = 0%Q).
Proof.
  eexists. split; [apply estimateDurationFromSize_run|].
  split; [reflexivity|]. split; [reflexivity|].
  intros H. destruct (AudioFetcher.network env _ _) as [response|e];
    [|reflexivity].
  now rewrite (H response eq_refl).
Qed.

(** What [fetchRange] returns has a status that [response.ok] accepts. *)
Lemma fetchRange_ok_status env audioPath range f response f' :
  AudioFetcher.fetchRange env audioPath range f = (Ok response, f') ->
  AudioFetcher.ok response = true.
Proof.
  rewrite fetchRange_run. cbv zeta.
  destruct (AudioFetcher.network env _ _) as [r|e]; [|discriminate].
  destruct (Z.eqb_spec (AudioFetcher.status r) 206) as [E|N]; cbn [negb andb].
  - intros H. injection H as <- _. unfold AudioFetcher.ok. rewrite E.
    reflexivity.
  - destruct (Z.eqb_spec (AudioFetcher.status r) 200) as [E|N'];
      cbn [negb]; [|discriminate].
    intros H. injection H as <- _. unfold AudioFetcher.ok. rewrite E.
    reflexivity.
Qed.

(** X2. [getAudioDuration] never fails.  When the fetch of the first MiB
    fails the duration is 0 and the fallback warning is logged; when the
    buffer decodes the duration is the decoded one and nothing more is
    sent; when it does not decode the duration is the estimate. *)
Theorem X2_getAudioDuration_never_fails (env : AudioFetcher.Env)
  (audioPath : string) (f : AudioFetcher.Fetcher) :
  exists d f',
    AudioFetcher.getAudioDuration env audioPath f = (Ok d, f')
    /\ (forall e f1,
           AudioFetcher.fetchRange env audioPath firstMiBRequest f
           = (Err e, f1) ->
           d = 0%Q
           /\ f' = snd (AudioFetcher.console_log
                          "Could not determine audio duration, using fallback"
                          f1))
    /\ (forall response f1 buffer d',
           AudioFetcher.fetchRange env audioPath firstMiBRequest f
           = (Ok response, f1) ->
           AudioFetcher.body response = Ok buffer ->
           AudioFetcher.decodeAudioData env buffer = Some d' ->
           d = d' /\ f' = f1)
    /\ (forall response f1 buffer,
           AudioFetcher.fetchRange env audioPath firstMiBRequest f
           = (Ok response, f1) ->
           AudioFetcher.body response = Ok buffer ->
           AudioFetcher.decodeAudioData env buffer = None ->
           AudioFetcher.estimateDurationFromSize env audioPath f1
           = (Ok d, f')).
Proof.
  unfold AudioFetcher.getAudioDuration. rewrite run_bind, run_try_catch.
  rewrite run_bind. fold firstMiBRequest.
  destruct (AudioFetcher.fetchRange env audioPath firstMiBRequest f)
    as [[response|e] f1] eqn:E.
  - rewrite (fetchRange_ok_status _ _ _ _ _ _ E). cbn [negb].
    rewrite run_bind. unfold AudioFetcher.settle.
    destruct (AudioFetcher.body response) as [buffer|e] eqn:Eb.
    + change ((mret (Some buffer) : AudioFetcher.M _) f1)
        with (Ok (Some buffer), f1).
      cbv iota beta.
      destruct (AudioFetcher.decodeAudioData env buffer) as [d'|] eqn:Ed.
      * exists d', f1. split; [reflexivity|].
        repeat split; intros; simplify_eq; congruence.
      * rewrite run_try_catch.
        pose proof (estimateDurationFromSize_run env audioPath f1) as Hd.
        rewrite Hd. eexists _, _. split; [reflexivity|].
        repeat split; intros; simplify_eq; congruence.
    + eexists _, _. split; [reflexivity|].
      repeat split; intros; simplify_eq; congruence.
  - eexists _, _. split; [reflexivity|].
    repeat split; intros; simplify_eq; reflexivity.
Qed.

(** A server that reports no length: the estimate is 0. *)
Lemma X1_estimate_never_fails_witness :
  fst (AudioFetcher.estimateDurationFromSize notFoundEnv "a.mp3"
         AudioFetcher.new) = Ok 0%Q.
Proof.
  destruct (X1_estimate_never_fails notFoundEnv "a.mp3" AudioFetcher.new)
    as (d & H & _ & _ & Hd).
  rewrite H. cbn [fst]. f_equal. apply Hd.
  intros response E. now injection E as <-.
Defined.

(** The first MiB cannot be fetched: the duration is 0. *)
Lemma X2_getAudioDuration_never_fails_witness :
  fst (AudioFetcher.getAudioDuration rangeFailEnv "a.mp3" AudioFetcher.new)
  = Ok 0%Q.
Proof.
  destruct (X2_getAudioDuration_never_fails rangeFailEnv "a.mp3"
              AudioFetcher.new) as (d & f' & H & H0 & _).
  rewrite H. cbn [fst]. f_equal.
  edestruct H0 as [Hd _]; [reflexivity | exact Hd].
Defined.

(** ** [getMetadata] that fails, and [clearCache] *)

Lemma console_sent req f :
  AudioFetcher.console (sent req f) = AudioFetcher.console f.
Proof. reflexivity. Qed.

(** X3. On a path that is not cached, a probe that is refused by the
    network or answered with a status outside 200-299 makes [getMetadata]
    fail, with the network's error or with "Failed to fetch metadata:
    <status>"; the probe is the only request sent, the error is logged,
    nothing is cached, and the next call probes again. *)
Theorem X3_getMetadata_probe_fails (env env' : AudioFetcher.Env)
  (audioPath : string) (f : AudioFetcher.Fetcher) :
  AudioFetcher.cache f !! ("metadata:" ++ audioPath) = None ->
  match AudioFetcher.network env (AudioFetcher.requests f)
          (probeRequest f audioPath) with
  | Ok response => AudioFetcher.ok response = false
  | Err _ => True
  end ->
  let e := match AudioFetcher.network env (AudioFetcher.requests f)
                   (probeRequest f audioPath) with
           | Ok response =>
               newError ("Failed to fetch metadata: "
                         ++ numberToString (AudioFetcher.status response))
           | Err e => e
           end in
  let f' := snd (AudioFetcher.getMetadata env audioPath f) in
  fst (AudioFetcher.getMetadata env audioPath f) = Err e
  /\ AudioFetcher.requests f'
     = (AudioFetcher.requests f ++ [probeRequest f audioPath])%list
  /\ AudioFetcher.console f'
     = (AudioFetcher.console f
        ++ [("Error fetching audio metadata: " ++ e)%string])%list
  /\ AudioFetcher.cache f' = AudioFetcher.cache f
  /\ Session.probes (snd (AudioFetcher.getMetadata env' audioPath f'))
     = (Session.probes f + 2)%nat.
Proof.
  intros Hc Hbad e f'. subst e f'.
  assert (Hrun :
    AudioFetcher.getMetadata env audioPath f
    = AudioFetcher.try_catch
        (AudioFetcher.throw
           match AudioFetcher.network env (AudioFetcher.requests f)
                   (probeRequest f audioPath) with
           | Ok response =>
               newError ("Failed to fetch metadata: "
                         ++ numberToString (AudioFetcher.status response))
           | Err e => e
           end)
        (fun error =>
           AudioFetcher.console_log
             ("Error fetching audio metadata: " ++ error);;
           AudioFetcher.throw error)
        (sent (probeRequest f audioPath) f)).
  { unfold AudioFetcher.getMetadata. rewrite run_this, Hc.
    rewrite !run_try_catch, run_resource, run_fetch.
    fold (probeRequest f audioPath).
    destruct (AudioFetcher.network env _ _) as [response|e]; [|reflexivity].
    rewrite Hbad. reflexivity. }
  rewrite Hrun. cbn [fst snd].
  split; [reflexivity|]. split; [reflexivity|]. split; [reflexivity|].
  split; [reflexivity|].
  rewrite probes_getMetadata_uncached by exact Hc.
  match goal with
  | |- (Session.probes ?g + 1)%nat = _ =>
      change (Session.probes g)
        with (Session.probes (sent (probeRequest f audioPath) f))
  end.
  rewrite probes_sent. cbn. lia.
Qed.

(** The probe of [a.mp3] is answered 404. *)
Lemma X3_getMetadata_probe_fails_witness :
  let out := AudioFetcher.getMetadata notFoundEnv "a.mp3" AudioFetcher.new in
  fst out = Err "Error: Failed to fetch metadata: 404"
  /\ length (AudioFetcher.requests (snd out)) = 1%nat
  /\ AudioFetcher.cache (snd out) = ∅.
Proof.
  destruct (X3_getMetadata_probe_fails notFoundEnv notFoundEnv "a.mp3"
              AudioFetcher.new) as (H1 & H2 & _ & H4 & _).
  - reflexivity.
  - reflexivity.
  - split; [exact H1|]. split; [now rewrite H2 | exact H4].
Defined.

(** X4. [clearCache] empties the cache and touches nothing else (the
    object URLs made so far are not revoked); after it every
    [getMetadata] sends its probe again, also for a path that was cached
    before. *)
Theorem X4_clearCache_forgets (env : AudioFetcher.Env) (audioPath : string)
  (f : AudioFetcher.Fetcher) :
  let f' := snd (AudioFetcher.clearCache f) in
  AudioFetcher.cache f' = ∅
  /\ AudioFetcher.requests f' = AudioFetcher.requests f
  /\ AudioFetcher.objectURLs f' = AudioFetcher.objectURLs f
  /\ Session.probes (snd (AudioFetcher.getMetadata env audioPath f'))
     = (Session.probes f + 1)%nat.
Proof.
  intros f'. split; [reflexivity|]. split; [reflexivity|].
  split; [reflexivity|].
  apply (probes_getMetadata_uncached env audioPath f'). apply lookup_empty.
Qed.

(** ** The [Range] header *)





(** ** Blobs *)

(** X6. For a track whose cached metadata reports range support,
    [createStreamingBlob] sends no request: it makes one object URL, for an
    empty blob, and leaves the cache and the console as they are. *)
Theorem X6_streaming_blob_is_empty (env : AudioFetcher.Env)
  (audioPath : string) (f : AudioFetcher.Fetcher)
  (md : AudioFetcher.AudioMetadata) :
  AudioFetcher.cache f !! ("metadata:" ++ audioPath) = Some md ->
  AudioFetcher.acceptRanges md = true ->
  let out := AudioFetcher.createStreamingBlob env audioPath f in
  exists u ty,
    fst out = Ok u
    /\ AudioFetcher.requests (snd out) = AudioFetcher.requests f
    /\ AudioFetcher.objectURLs (snd out)
       = (AudioFetcher.objectURLs f
          ++ [(u, {| AudioFetcher.blobType := ty;
                     AudioFetcher.blobParts := [] |})])%list
    /\ AudioFetcher.console (snd out) = AudioFetcher.console f
    /\ AudioFetcher.cache (snd out) = AudioFetcher.cache f.
Proof.
  intros Hc Hacc out. subst out. unfold AudioFetcher.createStreamingBlob.
  rewrite run_try_catch, run_bind, (getMetadata_cached _ _ _ _ Hc), Hacc.
  eexists _, _. repeat split; reflexivity.
Qed.

Lemma X6_streaming_blob_is_empty_witness :
  let f := snd (AudioFetcher.getMetadata scenarioEnv "a.mp3"
                  AudioFetcher.new) in
  exists u,
    fst (AudioFetcher.createStreamingBlob scenarioEnv "a.mp3" f) = Ok u
    /\ AudioFetcher.requests
         (snd (AudioFetcher.createStreamingBlob scenarioEnv "a.mp3" f))
       = AudioFetcher.requests f.
Proof.
  intros f.
  destruct (X6_streaming_blob_is_empty scenarioEnv "a.mp3" f scenarioMetadata)
    as (u & ty & H & Hr & _).
  - reflexivity.
  - reflexivity.
  - exists u. split; [exact H | exact Hr].
Defined.

Lemma run_log_throw {A} (line e : string) f :
  (AudioFetcher.console_log line ≫= fun _ => AudioFetcher.throw (A := A) e) f
  = (Err e, snd (AudioFetcher.console_log line f)).
Proof. reflexivity. Qed.

(** X7. [createRangeBlob] sends the one request of [fetchRange].  When
    that fetch and the reading of its body succeed, it makes one object
    URL, for a blob of the bytes received; otherwise it makes none, logs
    the error and fails with it. *)
Theorem X7_createRangeBlob (env : AudioFetcher.Env) (audioPath : string)
  (range : AudioFetcher.RangeRequest) (f : AudioFetcher.Fetcher) :
  let out := AudioFetcher.createRangeBlob env audioPath range f in
  AudioFetcher.requests (snd out)
  = (AudioFetcher.requests f ++ [rangeRequest f audioPath range])%list
  /\ (forall e, fst out = Err e ->
         AudioFetcher.objectURLs (snd out) = AudioFetcher.objectURLs f
         /\ AudioFetcher.console (snd out)
            = (AudioFetcher.console f
               ++ [("Error creating range blob: " ++ e)%string])%list
         /\ (fst (AudioFetcher.fetchRange env audioPath range f) = Err e
             \/ exists response,
                 fst (AudioFetcher.fetchRange env audioPath range f)
                 = Ok response
                 /\ AudioFetcher.body response = Err e))
  /\ (forall u, fst out = Ok u ->
         exists response bytes ty,
           fst (AudioFetcher.fetchRange env audioPath range f) = Ok response
           /\ AudioFetcher.body response = Ok bytes
           /\ AudioFetcher.objectURLs (snd out)
              = (AudioFetcher.objectURLs f
                 ++ [(u, {| AudioFetcher.blobType := ty;
                            AudioFetcher.blobParts := bytes |})])%list
           /\ AudioFetcher.console (snd out) = AudioFetcher.console f).
Proof.
  intros out. subst out. unfold AudioFetcher.createRangeBlob.
  rewrite run_try_catch, run_bind.
  pose proof (fetchRange_requests env audioPath range f) as Hreq.
  assert (Hkeep :
    AudioFetcher.objectURLs (snd (AudioFetcher.fetchRange env audioPath range f))
    = AudioFetcher.objectURLs f
    /\ AudioFetcher.console (snd (AudioFetcher.fetchRange env audioPath range f))
       = AudioFetcher.console f).
  { rewrite fetchRange_run. cbv zeta.
    destruct (AudioFetcher.network env _ _) as [r|e]; [|split; reflexivity].
    destruct (negb _ && negb _); split; reflexivity. }
  destruct (AudioFetcher.fetchRange env audioPath range f)
    as [[response|e] f1]; cbn [fst snd] in *.
  - rewrite run_bind. unfold AudioFetcher.settle.
    destruct (AudioFetcher.body response) as [bytes|e] eqn:Eb;
      rewrite ?run_log_throw; cbn [fst snd];
      unfold AudioFetcher.createObjectURL, AudioFetcher.console_log;
      cbn [fst snd AudioFetcher.requests AudioFetcher.objectURLs
             AudioFetcher.console];
      destruct Hkeep as [Hu Hc]; rewrite ?Hreq, ?Hu, ?Hc.
    + split; [reflexivity|]. split; [discriminate|].
      intros u Hu'. injection Hu' as <-. eexists response, bytes, _.
      repeat split; reflexivity || assumption.
    + split; [reflexivity|]. split; [|discriminate].
      intros e' He'. injection He' as <-.
      split; [reflexivity|]. split; [reflexivity|]. right. eauto.
  - rewrite run_log_throw. cbn [fst snd]. unfold AudioFetcher.console_log.
    cbn [fst snd AudioFetcher.requests AudioFetcher.objectURLs
           AudioFetcher.console].
    destruct Hkeep as [Hu Hc]. rewrite Hreq, Hu, Hc.
    split; [reflexivity|]. split; [|discriminate].
    intros e' He'. injection He' as <-. auto.
Qed.

(** ** The hook along a schedule *)

(** One event moves the index as [next()] or [previous()] do, or not at
    all. *)
Lemma step_currentTrack (tracks : list string) (p : RangePlayer.Player)
  (ev : RangePlayer.Event) :
  RangePlayer.currentTrack (RangePlayer.step tracks p ev)
  = RangePlayer.currentTrack p
  \/ RangePlayer.currentTrack (RangePlayer.step tracks p ev)
     = RangePlayer.currentTrack (RangePlayer.handleNext tracks p)
  \/ RangePlayer.currentTrack (RangePlayer.step tracks p ev)
     = RangePlayer.currentTrack (RangePlayer.handlePrev tracks p).
Proof.
  destruct ev as [| | | |t [md|e]|t [u|e]|t r [b|e]|e| | | |t| | | | |t|v];
    cbn -[RangePlayer.handleNext RangePlayer.handlePrev];
    unfold RangePlayer.loadTrack, RangePlayer.loadTrack_blob,
      RangePlayer.handlePlayPause, RangePlayer.handleSeek,
      RangePlayer.preloadRange;
    repeat match goal with
           | |- context [match ?x with _ => _ end] => destruct x
           end; auto.
Qed.

(** X8. On a non-empty track list the index stays within the list along
    every schedule, so [tracks[currentTrack]] is always a track of the
    list. *)
Theorem X8_index_stays_in_range (tracks : list string)
  (evs : list RangePlayer.Event) (p : RangePlayer.Player) :
  0 <= RangePlayer.currentTrack p < Z.of_nat (length tracks) ->
  0 <= RangePlayer.currentTrack (RangePlayer.run tracks evs p)
    < Z.of_nat (length tracks)
  /\ RangePlayer.trackAt tracks
       (RangePlayer.currentTrack (RangePlayer.run tracks evs p)) ∈ tracks.
Proof.
  intros Hp.
  assert (H : 0 <= RangePlayer.currentTrack (RangePlayer.run tracks evs p)
              < Z.of_nat (length tracks)).
  { revert p Hp. induction evs as [|ev evs IH]; intros p Hp; [exact Hp|].
    apply IH. destruct (next_index_in_range tracks p Hp) as [Hn Hv].
    destruct (step_currentTrack tracks p ev) as [->| [->| ->]]; assumption. }
  split; [exact H|]. unfold RangePlayer.trackAt.
  destruct (Z.ltb_spec (RangePlayer.currentTrack (RangePlayer.run tracks evs p))
              0) as [Hneg|_]; [lia|].
  destruct (lookup_lt_is_Some_2 tracks
              (Z.to_nat (RangePlayer.currentTrack
                           (RangePlayer.run tracks evs p)))) as [t Ht];
    [lia|].
  rewrite Ht. cbn. now apply list_elem_of_lookup_2 in Ht.
Qed.

(** Whatever is pressed, the index stays within the two tracks. *)
Lemma X8_index_stays_in_range_witness :
  RangePlayer.trackAt scenarioTracks
    (RangePlayer.currentTrack
       (RangePlayer.run scenarioTracks
          [RangePlayer.Prev; RangePlayer.Next; RangePlayer.Next;
           RangePlayer.Ended] RangePlayer.initial)) ∈ scenarioTracks.
Proof.
  apply (X8_index_stays_in_range scenarioTracks
           [RangePlayer.Prev; RangePlayer.Next; RangePlayer.Next;
            RangePlayer.Ended] RangePlayer.initial).
  cbn. lia.
Defined.

Lemma revoked_app (cs cs' : list RangePlayer.Call) :
  revoked (cs ++ cs') = (revoked cs ++ revoked cs')%list.
Proof.
  induction cs as [|c cs IH]; [reflexivity|].
  destruct c; cbn; now rewrite IH.
Qed.

Lemma startsWithBlob_nonempty (s : string) :
  negb (String.eqb s "") && RangePlayer.startsWithBlob s
  = RangePlayer.startsWithBlob s.
Proof. now destruct s. Qed.

(** One event, short of the unmount: what was revoked and what is held
    grow by the handle the event hands over. *)
Lemma step_handles (tracks : list string) (p : RangePlayer.Player)
  (a : RangePlayer.Audio) (ev : RangePlayer.Event) :
  RangePlayer.audioRef p = Some a -> isUnmount ev = false ->
  exists a',
    RangePlayer.audioRef (RangePlayer.step tracks p ev) = Some a'
    /\ (revoked (RangePlayer.calls (RangePlayer.step tracks p ev))
        ++ handleOf (RangePlayer.src a'))%list
       = (revoked (RangePlayer.calls p) ++ handleOf (RangePlayer.src a)
          ++ handlesOf [ev])%list.
Proof.
  intros Ha Hev.
  destruct ev as [| | | |t [md|e]|t [u|e]|t r [b|e]|e| | | |t| | | | |t|v];
    try discriminate; cbn;
    unfold RangePlayer.loadTrack, RangePlayer.loadTrack_blob,
      RangePlayer.handlePlayPause, RangePlayer.handleSeek,
      RangePlayer.preloadRange;
    rewrite ?Ha, ?startsWithBlob_nonempty; cbn;
    try (destruct (RangePlayer.metadataRef p));
    unfold handleOf at 2;
    repeat match goal with
           | |- context [if ?b then _ else _] => destruct b eqn:?
           end;
    cbn; rewrite ?Ha; eexists; (split; [reflexivity|]);
    cbn; rewrite ?revoked_app, ?app_nil_r; cbn;
    rewrite ?app_nil_r, <- ?app_assoc; cbn;
    unfold handleOf;
    repeat match goal with
           | H : RangePlayer.startsWithBlob _ = _ |- _ =>
               rewrite ?H; clear H
           end;
    cbn; rewrite ?app_nil_r; reflexivity.
Qed.

Lemma handlesOf_cons (ev : RangePlayer.Event) (evs : list RangePlayer.Event) :
  handlesOf (ev :: evs) = (handlesOf [ev] ++ handlesOf evs)%list.
Proof.
  destruct ev as [| | | |t [md|e]|t [u|e]|t r [b|e]|e| | | |t| | | | |t|v];
    cbn; rewrite ?app_nil_r; reflexivity.
Qed.

Lemma run_handles (tracks : list string) (evs : list RangePlayer.Event) :
  forall (p : RangePlayer.Player) (a : RangePlayer.Audio),
  RangePlayer.audioRef p = Some a ->
  forallb (fun ev => negb (isUnmount ev)) evs = true ->
  exists a',
    RangePlayer.audioRef (RangePlayer.run tracks evs p) = Some a'
    /\ (revoked (RangePlayer.calls (RangePlayer.run tracks evs p))
        ++ handleOf (RangePlayer.src a'))%list
       = (revoked (RangePlayer.calls p) ++ handleOf (RangePlayer.src a)
          ++ handlesOf evs)%list.
Proof.
  induction evs as [|ev evs IH]; intros p a Ha Hevs.
  - exists a. cbn. now rewrite app_nil_r.
  - cbn in Hevs. apply andb_true_iff in Hevs as [Hev Hevs].
    apply negb_true_iff in Hev.
    destruct (step_handles tracks p a ev Ha Hev) as (a1 & Ha1 & H1).
    destruct (IH _ a1 Ha1 Hevs) as (a' & Ha' & H').
    exists a'. split; [exact Ha'|].
    change (RangePlayer.run tracks (ev :: evs) p)
      with (RangePlayer.run tracks evs (RangePlayer.step tracks p ev)).
    rewrite H', handlesOf_cons, !app_assoc. f_equal.
    rewrite <- app_assoc. exact H1.
Qed.

(** X9. From the creation of the audio element to the unmount, every
    object URL that became the audio source is handed to
    [URL.revokeObjectURL] once: when the next one replaces it, or at the
    unmount; the unmount ends with [clearCache]. *)
Theorem X9_handles_released (tracks : list string)
  (evs : list RangePlayer.Event) (p : RangePlayer.Player)
  (a : RangePlayer.Audio) :
  RangePlayer.audioRef p = Some a ->
  forallb (fun ev => negb (isUnmount ev)) evs = true ->
  let p' := RangePlayer.step tracks (RangePlayer.run tracks evs p)
              RangePlayer.Unmount in
  revoked (RangePlayer.calls p')
  = (revoked (RangePlayer.calls p) ++ handleOf (RangePlayer.src a)
     ++ handlesOf evs)%list
  /\ last (RangePlayer.calls p') = Some RangePlayer.ClearCache.
Proof.
  intros Ha Hevs p'. subst p'.
  destruct (run_handles tracks evs p a Ha Hevs) as (a' & Ha' & H).
  rewrite <- H. cbn. rewrite Ha', startsWithBlob_nonempty.
  unfold handleOf. destruct (RangePlayer.startsWithBlob (RangePlayer.src a'));
    cbn; rewrite ?revoked_app, last_snoc; cbn; rewrite ?app_nil_r;
    split; reflexivity.
Qed.

(** Two loads, then the unmount: both handles are revoked, each once. *)
Lemma X9_handles_released_witness :
  revoked
    (RangePlayer.calls
       (RangePlayer.step scenarioTracks
          (RangePlayer.run scenarioTracks
             (loadEvents "a.mp3" scenarioMetadata "blob:0" ++ switchSchedule)
             mounted)
          RangePlayer.Unmount))
  = ["blob:0"; "blob:1"].
Proof.
  destruct (X9_handles_released scenarioTracks
              (loadEvents "a.mp3" scenarioMetadata "blob:0" ++ switchSchedule)
              mounted mountedAudio) as [H _].
  - reflexivity.
  - reflexivity.
  - rewrite H. reflexivity.
Defined.

(** One event other than the play/pause button sends the audio element
    neither [play()] nor [pause()]. *)
Lemma step_playCommands (tracks : list string) (p : RangePlayer.Player)
  (ev : RangePlayer.Event) :
  isPlayPause ev = false ->
  List.filter isPlayCommand (RangePlayer.calls (RangePlayer.step tracks p ev))
  = List.filter isPlayCommand (RangePlayer.calls p).
Proof.
  intros Hev.
  destruct ev as [| | | |t [md|e]|t [u|e]|t r [b|e]|e| | | |t| | | | |t|v];
    try discriminate; cbn;
    unfold RangePlayer.loadTrack, RangePlayer.loadTrack_blob,
      RangePlayer.handleSeek, RangePlayer.preloadRange;
    repeat match goal with
           | |- context [match ?x with _ => _ end] => destruct x
           end;
    cbn; rewrite ?List.filter_app; cbn; rewrite ?app_nil_r; reflexivity.
Qed.

(** One event other than the play/pause button leaves [isPlaying] set. *)
Lemma step_stays_playing (tracks : list string) (p : RangePlayer.Player)
  (ev : RangePlayer.Event) :
  isPlayPause ev = false -> RangePlayer.isPlaying p = true ->
  RangePlayer.isPlaying (RangePlayer.step tracks p ev) = true.
Proof.
  intros Hev Hp.
  destruct ev as [| | | |t [md|e]|t [u|e]|t r [b|e]|e| | | |t| | | | |t|v];
    try discriminate; cbn;
    unfold RangePlayer.loadTrack, RangePlayer.loadTrack_blob,
      RangePlayer.handleSeek, RangePlayer.preloadRange;
    repeat match goal with
           | |- context [match ?x with _ => _ end] => destruct x
           end;
    cbn; auto.
Qed.

(** Along a schedule without the play/pause button [isPlaying] stays set,
    the audio element stays, and it is sent neither [play()] nor
    [pause()]. *)
Lemma run_without_button (tracks : list string)
  (evs : list RangePlayer.Event) :
  forall (p : RangePlayer.Player),
    forallb (fun ev => negb (isPlayPause ev)) evs = true ->
    List.filter isPlayCommand
      (RangePlayer.calls (RangePlayer.run tracks evs p))
    = List.filter isPlayCommand (RangePlayer.calls p)
    /\ (RangePlayer.isPlaying p = true ->
        RangePlayer.isPlaying (RangePlayer.run tracks evs p) = true)
    /\ (is_Some (RangePlayer.audioRef p) ->
        is_Some (RangePlayer.audioRef (RangePlayer.run tracks evs p))).
Proof.
  induction evs as [|ev evs IH]; intros p Hevs; [now repeat split|].
  cbn in Hevs. apply andb_true_iff in Hevs as [Hev Hevs].
  apply negb_true_iff in Hev.
  change (RangePlayer.run tracks (ev :: evs) p)
    with (RangePlayer.run tracks evs (RangePlayer.step tracks p ev)).
  destruct (IH (RangePlayer.step tracks p ev) Hevs) as (Hc & Hp & Ha).
  split; [|split].
  - rewrite Hc. now apply step_playCommands.
  - intros H. now apply Hp, step_stays_playing.
  - intros [a H]. apply Ha.
    destruct (step_refs tracks p a ev H) as (_ & _ & a' & Ha' & _). eauto.
Qed.

(** X10. Only the play/pause button reaches the audio element's
    [play()] and [pause()]: along a schedule without it, track switches
    included, neither is called, although [next()] and [previous()] set
    [isPlaying]; so the first press of the button after a [next()] calls
    [pause()], whatever has happened in between. *)
Theorem X10_only_the_button_plays (tracks : list string)
  (evs evs' : list RangePlayer.Event) (p : RangePlayer.Player) :
  forallb (fun ev => negb (isPlayPause ev)) evs = true ->
  forallb (fun ev => negb (isPlayPause ev)) evs' = true ->
  List.filter isPlayCommand (RangePlayer.calls (RangePlayer.run tracks evs p))
  = List.filter isPlayCommand (RangePlayer.calls p)
  /\ (is_Some (RangePlayer.audioRef p) ->
      let p' := RangePlayer.run tracks
                  (evs ++ RangePlayer.Next :: evs' ++ [RangePlayer.PlayPause])
                  p in
      RangePlayer.isPlaying p' = false
      /\ List.filter isPlayCommand (RangePlayer.calls p')
         = (List.filter isPlayCommand (RangePlayer.calls p)
            ++ [RangePlayer.AudioPause])%list).
Proof.
  intros Hevs Hevs'.
  destruct (run_without_button tracks evs p Hevs) as (Hc & _ & Ha).
  split; [exact Hc|]. intros Hsome p'. subst p'.
  unfold RangePlayer.run. rewrite fold_left_app. cbn [fold_left].
  rewrite fold_left_app. cbn [fold_left].
  fold (RangePlayer.run tracks evs p).
  set (q := RangePlayer.step tracks (RangePlayer.run tracks evs p)
              RangePlayer.Next).
  fold (RangePlayer.run tracks evs' q).
  destruct (run_without_button tracks evs' q Hevs') as (Hc' & Hp' & Ha').
  specialize (Hp' eq_refl). destruct (Ha' (Ha Hsome)) as [a Hq].
  cbn [RangePlayer.step]. unfold RangePlayer.handlePlayPause.
  rewrite Hq, Hp'.
  cbn [RangePlayer.setIsPlaying RangePlayer.call RangePlayer.isPlaying
         RangePlayer.calls].
  split; [reflexivity|]. rewrite List.filter_app, Hc'. subst q.
  cbn [RangePlayer.step RangePlayer.handleNext RangePlayer.setIsPlaying
         RangePlayer.setCurrentTrack RangePlayer.calls].
  now rewrite Hc.
Qed.

(** [next()] from [a.mp3], loaded and paused, and the load of [b.mp3]:
    [isPlaying] is set and the audio element was never told to play; the
    button then pauses. *)
Lemma X10_only_the_button_plays_witness :
  let evs := loadEvents "a.mp3" scenarioMetadata "blob:0" in
  let p := RangePlayer.run scenarioTracks (evs ++ switchSchedule) mounted in
  RangePlayer.isPlaying p = true
  /\ List.filter isPlayCommand (RangePlayer.calls p) = []
  /\ List.filter isPlayCommand
       (RangePlayer.calls
          (RangePlayer.run scenarioTracks
             (evs ++ switchSchedule ++ [RangePlayer.PlayPause]) mounted))
     = [RangePlayer.AudioPause].
Proof.
  intros evs p. split; [reflexivity|].
  destruct (X10_only_the_button_plays scenarioTracks
              (evs ++ switchSchedule) [] mounted) as [H _];
    [reflexivity | reflexivity |].
  split; [exact H|].
  destruct (X10_only_the_button_plays scenarioTracks evs
              (loadEvents "b.mp3" metadataB "blob:1") mounted) as [_ H2];
    [reflexivity | reflexivity |].
  destruct H2 as [_ H2]; [now eexists|]. exact H2.
Defined.

(** ** More on seeking *)

(** The window depends on the whole seconds of the target only. *)
Lemma seekWindow_floor (s t : Q) (size : Z) :
  Qfloor s = Qfloor t ->
  RangePlayer.seekWindow s size = RangePlayer.seekWindow t size.
Proof. unfold RangePlayer.seekWindow. now intros ->. Qed.

(** X11. On a loaded track a seek issues at most one preload, for the
    current track: none when the window is in the presence cache, and
    otherwise one whose window starts at 0 or later, ends at the size of
    the file or before, and spans at most 1.5 MiB. *)
Theorem X11_seek_preload_bounded (tracks : list string) (newSeek : Q)
  (p : RangePlayer.Player) (a : RangePlayer.Audio)
  (md : AudioFetcher.AudioMetadata) :
  RangePlayer.audioRef p = Some a -> RangePlayer.metadataRef p = Some md ->
  let trackPath := RangePlayer.trackAt tracks (RangePlayer.currentTrack p) in
  let window := RangePlayer.seekWindow (RangePlayer.seekTimeOf newSeek p)
                  (AudioFetcher.size md) in
  RangePlayer.calls (RangePlayer.handleSeek tracks newSeek p)
  = (RangePlayer.calls p
     ++ if RangePlayer.hasPreloaded (RangePlayer.preloadedRanges p)
             trackPath window
        then []
        else [RangePlayer.PreloadRange trackPath
                (RangePlayer.toRequest window)])%list
  /\ 0 <= RangePlayer.start window
  /\ RangePlayer.end_ window <= AudioFetcher.size md
  /\ RangePlayer.end_ window - RangePlayer.start window <= 1536 * KiB.
Proof.
  intros Ha Hm trackPath window. split.
  - unfold RangePlayer.handleSeek. rewrite Ha, Hm.
    fold trackPath. fold window. unfold RangePlayer.preloadRange.
    destruct (RangePlayer.hasPreloaded _ _ _); cbn;
      now rewrite ?app_nil_r.
  - subst window. unfold KiB. cbn. lia.
Qed.

(** [seek(1.5)] on [a.mp3], loaded. *)
Lemma X11_seek_preload_bounded_witness :
  RangePlayer.calls (RangePlayer.handleSeek scenarioTracks (3 # 2) readyOnA)
  = (RangePlayer.calls readyOnA
     ++ [RangePlayer.PreloadRange "a.mp3"
           {| AudioFetcher.start := 524288;
              AudioFetcher.end_ := Some 2097152 |}])%list.
Proof.
  edestruct (X11_seek_preload_bounded scenarioTracks (3 # 2) readyOnA)
    as (H & _); [reflexivity | reflexivity |].
  rewrite H. reflexivity.
Defined.

Lemma handleSeek_keeps (tracks : list string) (newSeek : Q)
  (p : RangePlayer.Player) :
  let p' := RangePlayer.handleSeek tracks newSeek p in
  RangePlayer.currentTrack p' = RangePlayer.currentTrack p
  /\ RangePlayer.duration p' = RangePlayer.duration p
  /\ RangePlayer.metadataRef p' = RangePlayer.metadataRef p
  /\ RangePlayer.preloadedRanges p' = RangePlayer.preloadedRanges p
  /\ (is_Some (RangePlayer.audioRef p) -> is_Some (RangePlayer.audioRef p')).
Proof.
  unfold RangePlayer.handleSeek, RangePlayer.preloadRange.
  destruct (RangePlayer.audioRef p) as [a|] eqn:Ha;
    [destruct (RangePlayer.metadataRef p) as [md|] eqn:Hm|];
    [destruct (RangePlayer.hasPreloaded _ _ _)| |];
    cbn; rewrite ?Ha, ?Hm; repeat split; eauto.
Qed.

(** X12. Seeks on a loaded track are fetched once per whole second: when
    the preload of a seek has succeeded, a further seek to a target with
    the same whole second sends no request; when it has failed, the further
    seek sends the same request again. *)
Theorem X12_seek_same_second (env : AudioFetcher.Env) (tracks : list string)
  (t t' : Q) (w : Session.World) (a : RangePlayer.Audio)
  (md : AudioFetcher.AudioMetadata) :
  RangePlayer.audioRef (Session.player w) = Some a ->
  RangePlayer.metadataRef (Session.player w) = Some md ->
  Qfloor (RangePlayer.seekTimeOf t (Session.player w))
  = Qfloor (RangePlayer.seekTimeOf t' (Session.player w)) ->
  let trackPath := RangePlayer.trackAt tracks
                     (RangePlayer.currentTrack (Session.player w)) in
  let window := RangePlayer.seekWindow
                  (RangePlayer.seekTimeOf t (Session.player w))
                  (AudioFetcher.size md) in
  RangePlayer.hasPreloaded (RangePlayer.preloadedRanges (Session.player w))
    trackPath window = false ->
  let w1 := Session.seek env tracks t w in
  let w2 := Session.seek env tracks t' w1 in
  (forall bytes,
      fst (AudioFetcher.preloadRange env trackPath
             (RangePlayer.toRequest window) (Session.fetcher w)) = Ok bytes ->
      AudioFetcher.requests (Session.fetcher w2)
      = AudioFetcher.requests (Session.fetcher w1))
  /\ (forall e,
         fst (AudioFetcher.preloadRange env trackPath
                (RangePlayer.toRequest window) (Session.fetcher w)) = Err e ->
         AudioFetcher.requests (Session.fetcher w2)
         = (AudioFetcher.requests (Session.fetcher w1)
            ++ [rangeRequest (Session.fetcher w1) trackPath
                  (RangePlayer.toRequest window)])%list).
Proof.
  intros Ha Hm Hfl trackPath window Hfresh w1 w2.
  destruct (handleSeek_keeps tracks t (Session.player w))
    as (Hct & Hd & Hmd & Hpr & Hau).
  assert (Hw1 : w1 =
    Session.preloadRange env trackPath window true
      {| Session.player := RangePlayer.handleSeek tracks t (Session.player w);
         Session.fetcher := Session.fetcher w |}).
  { unfold w1, Session.seek. rewrite Ha, Hm. fold trackPath. fold window.
    now rewrite Hfresh. }
  unfold Session.preloadRange in Hw1. cbn [Session.fetcher Session.player] in Hw1.
  destruct (AudioFetcher.preloadRange env trackPath
              (RangePlayer.toRequest window) (Session.fetcher w))
    as [r f1] eqn:Epre.
  destruct (Hau (ex_intro _ a Ha)) as [a1 Ha1].
  assert (Hwin : RangePlayer.seekWindow
                   (RangePlayer.seekTimeOf t' (Session.player w1))
                   (AudioFetcher.size md) = window).
  { unfold window. apply seekWindow_floor. rewrite Hfl. f_equal.
    unfold RangePlayer.seekTimeOf. rewrite Hw1.
    destruct r; cbn; now rewrite Hd. }
  assert (Hp1 : RangePlayer.audioRef (Session.player w1) = Some a1
                /\ RangePlayer.metadataRef (Session.player w1) = Some md
                /\ RangePlayer.currentTrack (Session.player w1)
                   = RangePlayer.currentTrack (Session.player w)).
  { rewrite Hw1. destruct r; cbn; rewrite ?Ha1, ?Hmd, ?Hct; auto. }
  destruct Hp1 as (Ha1' & Hm1 & Hct1).
  unfold w2, Session.seek. rewrite Ha1', Hm1, Hct1, Hwin. fold trackPath.
  split.
  - intros bytes Hok. cbn [fst] in Hok. subst r.
    assert (Hhas : RangePlayer.hasPreloaded
                     (RangePlayer.preloadedRanges (Session.player w1))
                     trackPath window = true).
    { rewrite Hw1. cbn. apply hasPreloaded_mark_same. }
    rewrite Hhas. reflexivity.
  - intros e Herr. cbn [fst] in Herr. subst r.
    assert (Hhas : RangePlayer.hasPreloaded
                     (RangePlayer.preloadedRanges (Session.player w1))
                     trackPath window = false).
    { rewrite Hw1. cbn. now rewrite Hpr. }
    rewrite Hhas. cbn [negb]. unfold Session.preloadRange.
    cbn [Session.fetcher Session.player].
    pose proof (preloadRange_requests env trackPath
                  (RangePlayer.toRequest window) (Session.fetcher w1)) as Hr.
    destruct (AudioFetcher.preloadRange env trackPath
                (RangePlayer.toRequest window) (Session.fetcher w1))
      as [r2 f2]. exact Hr.
Qed.

(** ** The proxy *)

(** Case analysis on what the origin answered settles the statements about
    the proxy's status. *)
Ltac by_origin :=
  cbn; repeat split; intros;
  repeat match goal with
         | H : _ /\ _ |- _ => destruct H
         | H : exists _, _ |- _ => destruct H
         | H : _ \/ _ |- _ => destruct H
         end;
  simplify_eq; try congruence; try lia; eauto 10.

(** X14. The proxy's [GET] forwards the client's [Range] header (empty
    when there is none) and answers 200, 206, 404 or 500: 500 when the
    origin cannot be reached or its body cannot be read, 404 for every
    origin status outside 200-299, 206 when the client sent a range and the
    origin answered 206, and 200 otherwise, then with the length of the
    body it received as [Content-Length]. *)
Theorem X14_proxy_GET_status
  (origin : Route.OriginRequest -> Result Route.OriginResponse)
  (base : option string) (path : list string)
  (range userAgent : option string) :
  let out := Route.GET origin base path range userAgent in
  let req := originGet base path range userAgent in
  (Route.proxyStatus out = 200 \/ Route.proxyStatus out = 206
   \/ Route.proxyStatus out = 404 \/ Route.proxyStatus out = 500)
  /\ (Route.proxyStatus out = 500 <->
      (exists e, origin req = Err e)
      \/ (exists response e, origin req = Ok response
                             /\ Route.ok response = true
                             /\ Route.body response = Err e))
  /\ (Route.proxyStatus out = 404 <->
      exists response, origin req = Ok response
                       /\ Route.ok response = false)
  /\ (Route.proxyStatus out = 206 <->
      Route.truthy range = true
      /\ exists response bytes, origin req = Ok response
                                /\ Route.status response = 206
                                /\ Route.body response = Ok bytes)
  /\ (Route.proxyStatus out = 200 ->
      exists bytes, Route.proxyBody out = Route.Buffer bytes
                    /\ Route.proxyContentLength out
                       = Some (Z.of_nat (length bytes))).
Proof.
  intros out req. subst out. unfold Route.GET.
  fold (originGet base path range userAgent). fold req.
  destruct (origin req) as [response|e] eqn:Eo; [|cbn; by_origin].
  assert (H206 : Route.status response = 206 -> Route.ok response = true)
    by (unfold Route.ok; now intros ->).
  destruct (Route.ok response) eqn:Eok; cbn [negb]; [|cbn; by_origin].
  destruct (Route.body response) as [bytes|e] eqn:Eb; [|cbn; by_origin].
  destruct (Route.truthy range) eqn:Er; cbn [andb]; [|cbn; by_origin].
  destruct (Z.eqb_spec (Route.status response) 206) as [E6|N6]; cbn;
    by_origin.
Qed.

(** X15. The proxy's [HEAD] sends the origin no [Range] header and
    answers 200, 404 or 500; its 200 always says [Accept-Ranges: bytes] and
    carries a content type and a [Content-Length], the origin's or
    ["audio/mpeg"] and 0 when the origin tells none. *)
Theorem X15_proxy_HEAD
  (origin : Route.OriginRequest -> Result Route.OriginResponse)
  (base : option string) (path : list string) (userAgent : option string) :
  let out := Route.HEAD origin base path userAgent in
  let req := originHead base path userAgent in
  Route.range req = None
  /\ (Route.proxyStatus out = 200 \/ Route.proxyStatus out = 404
      \/ Route.proxyStatus out = 500)
  /\ (Route.proxyStatus out = 200 <->
      exists response, origin req = Ok response /\ Route.ok response = true)
  /\ (Route.proxyStatus out = 200 ->
      Route.proxyAcceptRanges out = Some "bytes"
      /\ (exists t, Route.proxyContentType out = Some t /\ t <> "")
      /\ exists n, Route.proxyContentLength out = Some n
                   /\ forall response, origin req = Ok response ->
                        n = default 0 (Route.contentLength response)).
Proof.
  intros out req. subst out. unfold Route.HEAD.
  fold (originHead base path userAgent). fold req.
  split; [reflexivity|].
  destruct (origin req) as [response|e] eqn:Eo; [|cbn; by_origin].
  destruct (Route.ok response) eqn:Eok; cbn [negb]; [|cbn; by_origin].
  assert (Ht : Route.orElse (Route.contentType response) "audio/mpeg" <> "").
  { unfold Route.orElse.
    destruct (Route.contentType response) as [t|]; [|discriminate].
    destruct (String.eqb_spec t ""); [discriminate | assumption]. }
  cbn. split; [auto|]. split; [by_origin|]. intros _.
  split; [reflexivity|]. split; [eauto|].
  eexists. split; [reflexivity|]. intros r H. injection H as <-.
  now destruct (Route.contentLength response).
Qed.

(** ** The fetch client behind the proxy *)

(** What a successful [getMetadata] reports comes from the answer to its
    probe. *)
Lemma getMetadata_fields env audioPath f md f' :
  AudioFetcher.cache f !! ("metadata:" ++ audioPath) = None ->
  AudioFetcher.getMetadata env audioPath f = (Ok md, f') ->
  exists response,
    AudioFetcher.network env (AudioFetcher.requests f)
      (probeRequest f audioPath) = Ok response
    /\ AudioFetcher.ok response = true
    /\ AudioFetcher.size md
       = default 0 (AudioFetcher.contentLengthHeader response)
    /\ AudioFetcher.acceptRanges md
       = match AudioFetcher.acceptRangesHeader response with
         | Some v => String.eqb v "bytes"
         | None => false
         end.
Proof.
  intros Hc. unfold AudioFetcher.getMetadata. rewrite run_this, Hc.
  rewrite run_try_catch, run_resource, run_fetch.
  fold (probeRequest f audioPath).
  destruct (AudioFetcher.network env _ _) as [response|e]; [|discriminate].
  destruct (AudioFetcher.ok response) eqn:Eok; [|discriminate].
  cbn [negb]. rewrite run_bind.
  destruct (AudioFetcher.getAudioDuration env audioPath _) as [[d|e] f2];
    [|discriminate].
  intros H. injection H as <- _. exists response.
  repeat split; try assumption;
    now destruct (AudioFetcher.contentLengthHeader response).
Qed.

#[local] Instance keepsRanged_preorder : PreOrder keepsRanged.
Proof. split; [intros l H; exact H | intros a b c Hab Hbc H; auto]. Qed.

Lemma ranged_fetch env req :
  (AudioFetcher.method req = AudioFetcher.GET ->
   AudioFetcher.rangeHeader req <> None) ->
  respects keepsRanged AudioFetcher.requests (AudioFetcher.fetch env req).
Proof.
  intros Hreq f Hf. cbn. apply Forall_app. split; [exact Hf|].
  now constructor.
Qed.

Lemma ranged_console_log line :
  respects keepsRanged AudioFetcher.requests (AudioFetcher.console_log line).
Proof. intros f H. exact H. Qed.

Lemma ranged_createObjectURL b :
  respects keepsRanged AudioFetcher.requests (AudioFetcher.createObjectURL b).
Proof. intros f H. exact H. Qed.

Lemma ranged_cache_set k md :
  respects keepsRanged AudioFetcher.requests (AudioFetcher.cache_set k md).
Proof. intros f H. exact H. Qed.

Ltac ranged_prim :=
  first [ apply ranged_console_log | apply ranged_createObjectURL
        | apply ranged_cache_set
        | apply ranged_fetch; cbn; congruence ].

Lemma ranged_fetchRange env audioPath range :
  respects keepsRanged AudioFetcher.requests
    (AudioFetcher.fetchRange env audioPath range).
Proof. unfold AudioFetcher.fetchRange. respects_with ranged_prim. Qed.

Lemma ranged_estimateDurationFromSize env audioPath :
  respects keepsRanged AudioFetcher.requests
    (AudioFetcher.estimateDurationFromSize env audioPath).
Proof.
  unfold AudioFetcher.estimateDurationFromSize. respects_with ranged_prim.
Qed.

Lemma ranged_getAudioDuration env audioPath :
  respects keepsRanged AudioFetcher.requests
    (AudioFetcher.getAudioDuration env audioPath).
Proof.
  unfold AudioFetcher.getAudioDuration.
  respects_with ltac:(first [ ranged_prim | apply ranged_fetchRange
                            | apply ranged_estimateDurationFromSize ]).
Qed.

Lemma ranged_getMetadata env audioPath :
  respects keepsRanged AudioFetcher.requests
    (AudioFetcher.getMetadata env audioPath).
Proof.
  unfold AudioFetcher.getMetadata.
  repeat (respects_with ltac:(first [ ranged_prim
                                    | apply ranged_getAudioDuration ]);
          try progress cbv zeta).
Qed.

Lemma ranged_preloadRange env audioPath range :
  respects keepsRanged AudioFetcher.requests
    (AudioFetcher.preloadRange env audioPath range).
Proof.
  unfold AudioFetcher.preloadRange.
  respects_with ltac:(first [ ranged_prim | apply ranged_fetchRange ]).
Qed.

Lemma ranged_createRangeBlob env audioPath range :
  respects keepsRanged AudioFetcher.requests
    (AudioFetcher.createRangeBlob env audioPath range).
Proof.
  unfold AudioFetcher.createRangeBlob.
  respects_with ltac:(first [ ranged_prim | apply ranged_fetchRange ]).
Qed.

(** Behind the proxy a probe that is accepted says [Accept-Ranges:
    bytes]. *)
Lemma proxy_probe_accepts origin base router userAgent decode hist req
  response :
  AudioFetcher.method req = AudioFetcher.HEAD ->
  AudioFetcher.network (proxyEnv origin base router userAgent decode) hist req
  = Ok response ->
  AudioFetcher.ok response = true ->
  AudioFetcher.acceptRangesHeader response = Some "bytes".
Proof.
  intros Hm H Hok. cbn in H. rewrite Hm in H. injection H as <-.
  revert Hok. unfold Route.HEAD.
  destruct (origin _) as [r|e]; [|discriminate].
  now destruct (Route.ok r).
Qed.

Section BehindTheProxy.
Context (origin : Route.OriginRequest -> Result Route.OriginResponse)
  (base : option string) (router : string -> list string)
  (userAgent : option string) (decode : list N -> option Q).

Let env := proxyEnv origin base router userAgent decode.

Lemma proxy_getMetadata audioPath f :
  allRanged (AudioFetcher.cache f) ->
  allRanged (AudioFetcher.cache
               (snd (AudioFetcher.getMetadata env audioPath f))).
Proof.
  intros Hf.
  destruct (AudioFetcher.cache f !! ("metadata:" ++ audioPath)) as [md0|]
    eqn:Hc.
  - now rewrite (getMetadata_cached _ _ _ _ Hc).
  - destruct (getMetadata_uncached env audioPath f Hc)
      as [(e & f1 & E & Heq)|(md & f1 & E & Hins)]; rewrite E; cbn [snd].
    + now rewrite Heq.
    + rewrite Hins. intros k md' Hk.
      destruct (decide (k = "metadata:" ++ audioPath)) as [->|Hne].
      * rewrite lookup_insert_eq in Hk. injection Hk as <-.
        destruct (getMetadata_fields env audioPath f md f1 Hc E)
          as (response & Hnet & Hok & _ & ->).
        now rewrite (proxy_probe_accepts origin base router userAgent
                       decode _ (probeRequest f audioPath) response
                       eq_refl Hnet Hok).
      * rewrite lookup_insert_ne in Hk by congruence. eauto.
Qed.

Lemma proxy_createStreamingBlob audioPath f :
  allRanged (AudioFetcher.cache f) ->
  rangedOnly (AudioFetcher.requests f) ->
  let f' := snd (AudioFetcher.createStreamingBlob env audioPath f) in
  allRanged (AudioFetcher.cache f') /\ rangedOnly (AudioFetcher.requests f').
Proof.
  intros Hc Hr. cbv zeta. unfold AudioFetcher.createStreamingBlob.
  rewrite run_try_catch, run_bind.
  pose proof (proxy_getMetadata audioPath f Hc) as Hc1.
  pose proof (ranged_getMetadata env audioPath f Hr) as Hr1.
  destruct (AudioFetcher.getMetadata env audioPath f) as [[md|e] f1] eqn:E;
    cbn [snd] in Hc1, Hr1.
  - rewrite (Hc1 _ md (getMetadata_ok_cached _ _ _ _ _ E)). cbn [negb].
    split; assumption.
  - rewrite run_log_throw. split; assumption.
Qed.

Lemma proxy_perform f op :
  allRanged (AudioFetcher.cache f) ->
  rangedOnly (AudioFetcher.requests f) ->
  allRanged (AudioFetcher.cache (Session.perform env f op))
  /\ rangedOnly (AudioFetcher.requests (Session.perform env f op)).
Proof.
  intros Hc Hr. destruct op as [a|a r|a r|a|a r|]; cbn [Session.perform].
  - split; [now apply proxy_getMetadata | now apply ranged_getMetadata].
  - split; [now rewrite <- cache_fetchRange | now apply ranged_fetchRange].
  - split; [now rewrite <- cache_createRangeBlob
           | now apply ranged_createRangeBlob].
  - now apply proxy_createStreamingBlob.
  - split; [now rewrite <- cache_preloadRange
           | now apply ranged_preloadRange].
  - split; [intros k md Hk; cbn in Hk; now rewrite lookup_empty in Hk
           | exact Hr].
Qed.
End BehindTheProxy.

(** X16. Behind the repository's proxy the metadata that [getMetadata]
    caches always reports range support, whatever the origin says, so the
    whole-resource fallback of [createStreamingBlob] is never taken: after
    any sequence of calls of the client, every [GET] it has sent carries a
    [Range] header. *)
Theorem X16_no_full_fetch_behind_proxy
  (origin : Route.OriginRequest -> Result Route.OriginResponse)
  (base : option string) (router : string -> list string)
  (userAgent : option string) (decode : list N -> option Q)
  (ops : list Session.Op) (f : AudioFetcher.Fetcher) :
  allRanged (AudioFetcher.cache f) ->
  rangedOnly (AudioFetcher.requests f) ->
  let f' := fold_left
              (Session.perform (proxyEnv origin base router userAgent decode))
              ops f in
  allRanged (AudioFetcher.cache f') /\ rangedOnly (AudioFetcher.requests f').
Proof.
  revert f. induction ops as [|op ops IH]; intros f Hc Hr; [now split|].
  cbn. destruct (proxy_perform origin base router userAgent decode f op Hc Hr)
    as [Hc' Hr'].
  now apply IH.
Qed.

(** ** The time display *)

Lemma Qfloor_div_60 (s : Q) : Qfloor (s / 60) = Qfloor s / 60.
Proof.
  destruct s as [a b]. unfold Qdiv, Qmult, Qinv. cbn.
  rewrite Z.mul_1_r, Pos2Z.inj_mul. now rewrite Z.div_div by lia.
Qed.

Lemma Qfloor_sub_Z (s : Q) (k : Z) :
  Qfloor (s - inject_Z k * 60) = Qfloor s - k * 60.
Proof.
  destruct s as [a b]. unfold Qminus, Qplus, Qopp, Qmult, inject_Z. cbn.
  change (Z.pos (1 * 1)) with 1.
  change (b * (1 * 1))%positive with (b * 1)%positive.
  rewrite Pos.mul_1_r, Z.mul_1_r. rewrite Z.div_add by lia. lia.
Qed.

(** For a position that is not negative the two parts of the display are
    the quotient and the remainder of its whole seconds by 60. *)
Lemma formatTime_parts (s : Q) :
  (0 <= s)%Q ->
  AudioPlayerView.formatTime (Some s)
  = numberToString (Qfloor s / 60) ++ ":" ++ twoDigits (Qfloor s mod 60).
Proof.
  intros Hs. unfold AudioPlayerView.formatTime, AudioPlayerView.remainder.
  cbv zeta.
  assert (Hq : Qle_bool 0 (s / 60) = true).
  { apply Qle_bool_iff. apply Qle_shift_div_l; [reflexivity|].
    now rewrite Qmult_0_l. }
  rewrite Hq, Qfloor_sub_Z, !Qfloor_div_60.
  replace (Qfloor s - Qfloor s / 60 * 60) with (Qfloor s mod 60)
    by (rewrite Z.mod_eq by lia; lia).
  reflexivity.
Qed.

Lemma twoDigits_digits (secs : Z) :
  0 <= secs -> every isDigit (twoDigits secs) = true.
Proof.
  intros H. unfold twoDigits.
  assert (Hd : every isDigit (numberToString secs) = true).
  { unfold numberToString. destruct secs as [|p|p]; [reflexivity| |lia].
    apply uint_digits. }
  destruct (secs <? 10); cbn; now rewrite Hd.
Qed.

(** The seconds of a minute are told apart by their two digits. *)
Lemma twoDigits_check :
  forallb (fun a => forallb (fun b =>
             implb (String.eqb (twoDigits a) (twoDigits b)) (a =? b))
             (below 60)) (below 60) = true.
Proof. vm_compute. reflexivity. Qed.

Lemma below_spec (n : nat) (z : Z) : 0 <= z < Z.of_nat n -> In z (below n).
Proof.
  intros H. unfold below. apply in_map_iff. exists (Z.to_nat z).
  split; [lia|]. apply in_seq. lia.
Qed.

Lemma twoDigits_inj (a b : Z) :
  0 <= a < 60 -> 0 <= b < 60 -> twoDigits a = twoDigits b -> a = b.
Proof.
  intros Ha Hb E. pose proof twoDigits_check as H.
  rewrite forallb_forall in H. specialize (H a (below_spec 60 a Ha)).
  rewrite forallb_forall in H. specialize (H b (below_spec 60 b Hb)).
  rewrite E, String.eqb_refl in H. cbn in H. now apply Z.eqb_eq.
Qed.

(** X13. [formatTime] shows a position that is not negative (and below
    2^53 seconds, where whole numbers are exact) as the minutes, a colon and
    the seconds of the minute in two digits, of its whole seconds; two such
    positions are shown alike exactly when their whole seconds are the same;
    [NaN] is shown as 0:00, like 0. *)
Theorem X13_formatTime_whole_seconds (s t : Q) :
  (0 <= s)%Q -> (s < inject_Z (2 ^ 53))%Q ->
  (0 <= t)%Q -> (t < inject_Z (2 ^ 53))%Q ->
  AudioPlayerView.formatTime (Some s)
  = numberToString (Qfloor s / 60) ++ ":" ++ twoDigits (Qfloor s mod 60)
  /\ String.length (twoDigits (Qfloor s mod 60)) = 2%nat
  /\ (AudioPlayerView.formatTime (Some s) = AudioPlayerView.formatTime (Some t)
      <-> Qfloor s = Qfloor t)
  /\ AudioPlayerView.formatTime None = AudioPlayerView.formatTime (Some 0%Q).
Proof.
  intros Hs _ Ht _.
  assert (H0 : forall x, (0 <= x)%Q -> 0 <= Qfloor x).
  { intros x Hx. change 0 with (Qfloor 0). now apply Qfloor_resp_le. }
  pose proof (H0 s Hs) as Hfs. pose proof (H0 t Ht) as Hft.
  split; [now apply formatTime_parts|]. split; [|split; [|reflexivity]].
  - pose proof (Z.mod_pos_bound (Qfloor s) 60 ltac:(lia)) as Hm.
    assert (Hl : forallb (fun a => Nat.eqb (String.length (twoDigits a)) 2)
                   (below 60) = true) by (vm_compute; reflexivity).
    rewrite forallb_forall in Hl.
    now apply Nat.eqb_eq, Hl, below_spec.
  - rewrite !formatTime_parts by assumption. split; [|now intros ->].
    intros E.
    pose proof (Z.mod_pos_bound (Qfloor s) 60 ltac:(lia)) as Hms.
    pose proof (Z.mod_pos_bound (Qfloor t) 60 ltac:(lia)) as Hmt.
    apply (split_unique isDigit ":" ":") in E as (Em & _ & Es);
      try reflexivity; try (apply twoDigits_digits; lia).
    apply numberToString_inj in Em. apply twoDigits_inj in Es; [|lia..].
    rewrite (Z.div_mod (Qfloor s) 60), (Z.div_mod (Qfloor t) 60) by lia.
    now rewrite Em, Es.
Qed.

(** 75.9 seconds read 1:15, as 75 seconds do. *)
Lemma X13_formatTime_whole_seconds_witness :
  AudioPlayerView.formatTime (Some (759 # 10)) = "1:15"
  /\ AudioPlayerView.formatTime (Some (759 # 10))
     = AudioPlayerView.formatTime (Some 75%Q).
Proof.
  destruct (X13_formatTime_whole_seconds (759 # 10) 75) as (H & _ & Heq & _).
  - discriminate.
  - reflexivity.
  - discriminate.
  - reflexivity.
  - split; [rewrite H; reflexivity | apply Heq; reflexivity].
Defined.

(** ** Instances *)

(** A range of [a.mp3] is fetched into a blob; on a server that has
    nothing no object URL is made. *)
Lemma X7_createRangeBlob_witness :
  let range := {| AudioFetcher.start := 0; AudioFetcher.end_ := Some 1023 |} in
  AudioFetcher.objectURLs
    (snd (AudioFetcher.createRangeBlob notFoundEnv "a.mp3" range
            AudioFetcher.new)) = []
  /\ exists u,
      fst (AudioFetcher.createRangeBlob scenarioEnv "a.mp3" range
             AudioFetcher.new) = Ok u.
Proof.
  intros range. split.
  - destruct (X7_createRangeBlob notFoundEnv "a.mp3" range AudioFetcher.new)
      as (_ & H & _).
    destruct (H "Error: Range request failed: 404") as (Hu & _);
      [reflexivity | exact Hu].
  - destruct (X7_createRangeBlob scenarioEnv "a.mp3" range AudioFetcher.new)
      as (_ & _ & H).
    destruct (H "blob:0") as (r & b & ty & _); [reflexivity|].
    exists "blob:0". reflexivity.
Defined.

(** [seek(150)], then [seek(150.5)], on the scenario's [a.mp3]. *)
Lemma X12_seek_same_second_witness :
  AudioFetcher.requests
    (Session.fetcher
       (Session.seek scenarioEnv scenarioTracks (301 # 2)
          (Session.seek scenarioEnv scenarioTracks 150 scenarioLoaded)))
  = AudioFetcher.requests
      (Session.fetcher
         (Session.seek scenarioEnv scenarioTracks 150 scenarioLoaded)).
Proof.
  edestruct (X12_seek_same_second scenarioEnv scenarioTracks 150 (301 # 2)
               scenarioLoaded) as (H & _).
  - vm_compute. reflexivity.
  - vm_compute. reflexivity.
  - reflexivity.
  - reflexivity.
  - apply (H []). reflexivity.
Defined.

(** A range request reaches the origin and its 206 comes back; from an
    origin that has nothing, 404 does. *)
Lemma X14_proxy_GET_status_witness :
  Route.proxyStatus
    (Route.GET partialOrigin None ["audio"; "a.mp3"] (Some "bytes=0-1") None)
  = 206
  /\ Route.proxyStatus
       (Route.GET emptyOrigin None ["audio"; "a.mp3"] (Some "bytes=0-1") None)
     = 404.
Proof.
  split.
  - apply (X14_proxy_GET_status partialOrigin None ["audio"; "a.mp3"]
             (Some "bytes=0-1") None).
    split; [reflexivity|]. eexists _, _. repeat split; reflexivity.
  - apply (X14_proxy_GET_status emptyOrigin None ["audio"; "a.mp3"]
             (Some "bytes=0-1") None).
    eexists. split; reflexivity.
Defined.

(** The probe of [a.mp3] at an origin that tells its length. *)
Lemma X15_proxy_HEAD_witness :
  Route.proxyAcceptRanges
    (Route.HEAD partialOrigin None ["audio"; "a.mp3"] None) = Some "bytes"
  /\ Route.proxyContentLength
       (Route.HEAD partialOrigin None ["audio"; "a.mp3"] None) = Some 3.
Proof.
  destruct (X15_proxy_HEAD partialOrigin None ["audio"; "a.mp3"] None)
    as (_ & _ & _ & H).
  destruct H as (Ha & _ & n & Hn & Hdef); [reflexivity|].
  split; [exact Ha|]. rewrite Hn. f_equal.
  exact (Hdef _ eq_refl).
Defined.

(** The streaming blob of [a.mp3] behind the proxy. *)
Lemma X16_no_full_fetch_behind_proxy_witness :
  rangedOnly
    (AudioFetcher.requests
       (Session.perform
          (proxyEnv partialOrigin None scenarioRouter None (fun _ => None))
          AudioFetcher.new (Session.CreateStreamingBlob "a.mp3"))).
Proof.
  apply (X16_no_full_fetch_behind_proxy partialOrigin None scenarioRouter None
           (fun _ => None) [Session.CreateStreamingBlob "a.mp3"]
           AudioFetcher.new).
  - intros k md H. cbn in H. now rewrite lookup_empty in H.
  - constructor.
Defined.

(** ** The Howler-based hook *)

Lemma remove_only (x : nat) : List.remove Nat.eq_dec x [x] = [].
Proof. cbn. now destruct (Nat.eq_dec x x). Qed.

Lemma remove_from_refs (x : nat) (l : list nat) :
  l = [] \/ l = [x] -> List.remove Nat.eq_dec x l = [].
Proof. intros [->| ->]; [reflexivity | apply remove_only]. Qed.

Lemma stopSeekUpdate_tidy (h : HowlSession.Hook) :
  HowlSession.running h = option_list (HowlSession.seekInterval h) ->
  let h' := HowlSession.stopSeekUpdate h in
  HowlSession.running h' = [] /\ HowlSession.seekInterval h' = None
  /\ HowlSession.loaded h' = HowlSession.loaded h
  /\ HowlSession.howl h' = HowlSession.howl h
  /\ HowlSession.effectSound h' = HowlSession.effectSound h
  /\ HowlSession.player h' = HowlSession.player h.
Proof.
  intros Hr. unfold HowlSession.stopSeekUpdate.
  destruct (HowlSession.seekInterval h) as [t|] eqn:Et;
    cbn [option_list] in Hr; cbn -[List.remove].
  - rewrite Hr, remove_only. repeat split.
  - rewrite Hr. repeat split; assumption.
Qed.

Lemma startSeekUpdate_tidy (h : HowlSession.Hook) :
  HowlSession.running h = option_list (HowlSession.seekInterval h) ->
  let h' := HowlSession.startSeekUpdate h in
  HowlSession.running h' = option_list (HowlSession.seekInterval h')
  /\ HowlSession.loaded h' = HowlSession.loaded h
  /\ HowlSession.howl h' = HowlSession.howl h
  /\ HowlSession.effectSound h' = HowlSession.effectSound h
  /\ HowlSession.player h' = HowlSession.player h.
Proof.
  intros Hr.
  destruct (stopSeekUpdate_tidy h Hr) as (H1 & H2 & H3 & H4 & H5 & H6).
  unfold HowlSession.startSeekUpdate. cbn -[HowlSession.stopSeekUpdate].
  cbv zeta in H1. rewrite H1. repeat split; assumption.
Qed.

Lemma cleanup_tidy (h : HowlSession.Hook) :
  tidy h ->
  let h' := HowlSession.cleanup h in
  tidy h' /\ HowlSession.loaded h' = [] /\ HowlSession.running h' = []
  /\ HowlSession.seekInterval h' = None
  /\ HowlSession.howl h' = HowlSession.howl h
  /\ HowlSession.player h' = HowlSession.player h
  /\ HowlSession.howls h' = HowlSession.howls h.
Proof.
  intros (He & Hn & Hr & Hl). unfold HowlSession.cleanup. rewrite He.
  destruct (HowlSession.howl h) as [id|] eqn:Eh.
  - destruct (stopSeekUpdate_tidy (HowlSession.unload id h) Hr)
      as (H1 & H2 & H3 & H4 & H5 & H6).
    cbv zeta in *. unfold tidy. rewrite H1, H2, H3, H4, H5, H6.
    cbn -[List.remove]. rewrite (remove_from_refs id) by exact Hl.
    rewrite Eh. repeat split; auto.
    unfold HowlSession.stopSeekUpdate.
    now destruct (HowlSession.seekInterval (HowlSession.unload id h)).
  - specialize (Hn eq_refl). cbv zeta. unfold tidy.
    rewrite He, Eh, Hr, Hn. cbn.
    assert (HowlSession.loaded h = []) as -> by (destruct Hl; assumption).
    repeat split; auto.
Qed.

Lemma trackEffect_tidy (tracks : list string) (h : HowlSession.Hook) :
  tidy h -> HowlSession.loaded h = [] -> HowlSession.running h = [] ->
  HowlSession.seekInterval h = None ->
  let h' := HowlSession.trackEffect tracks h in
  tidy h' /\ HowlSession.howl h' = Some (HowlSession.howls h)
  /\ HowlSession.loaded h' = [HowlSession.howls h].
Proof.
  intros (He & Hn & Hr & Hl) Hl0 Hr0 Hs0. unfold HowlSession.trackEffect.
  set (h1 := match HowlSession.howl h with
             | Some old => HowlSession.unload old h
             | None => h
             end).
  assert (H1 : HowlSession.loaded h1 = [] /\ HowlSession.running h1 = []
               /\ HowlSession.seekInterval h1 = None
               /\ HowlSession.howls h1 = HowlSession.howls h).
  { subst h1. destruct (HowlSession.howl h); cbn; rewrite ?Hl0; auto. }
  destruct H1 as (Hl1 & Hr1 & Hs1 & Hh1). cbv zeta. cbn [HowlSession.player].
  match goal with
  | |- context [if ?b then _ else _] => destruct b
  end.
  - match goal with
    | |- context [HowlSession.startSeekUpdate ?x] =>
        destruct (startSeekUpdate_tidy x) as (S1 & S2 & S3 & S4 & S5);
        [cbn; now rewrite Hr1, Hs1|]
    end.
    cbv zeta in *. unfold tidy. rewrite S1, S2, S3, S4. cbn.
    rewrite Hl1, Hh1. repeat split; auto; discriminate.
  - unfold tidy. cbn. rewrite Hl1, Hr1, Hs1, Hh1. repeat split; auto;
      discriminate.
Qed.

(** One event keeps the refs and what they refer to in agreement. *)
Lemma step_tidy (tracks : list string) (h : HowlSession.Hook)
  (ev : HowlSession.Event) :
  tidy h -> tidy (HowlSession.step tracks h ev).
Proof.
  intros Ht. pose proof Ht as (He & Hn & Hr & Hl).
  destruct ev as [| | |d| |timer playing position| | | |t|v]; cbn.
  - destruct (cleanup_tidy h Ht) as (Hc & Hl0 & Hr0 & Hs0 & _).
    now apply trackEffect_tidy.
  - destruct (HowlSession.howl h) eqn:Eh; [|exact Ht].
    unfold tidy. cbn. now rewrite Eh.
  - now apply cleanup_tidy.
  - exact Ht.
  - exact Ht.
  - destruct (bool_decide _); [|exact Ht].
    destruct (HowlSession.howl h) eqn:Eh; [|exact Ht].
    destruct playing; [|exact Ht]. unfold tidy. cbn. now rewrite Eh.
  - unfold HowlSession.handlePlayPause.
    destruct (HowlSession.howl h) as [id|] eqn:Eh; [|exact Ht].
    destruct (HowlPlayer.isPlaying (HowlSession.player h)).
    + destruct (stopSeekUpdate_tidy (HowlSession.call (HowlSession.Pause id) h)
                  Hr) as (H1 & H2 & H3 & H4 & H5 & H6).
      cbv zeta in *. unfold tidy. cbn. rewrite H1, H2, H3, H4, H5. cbn.
      rewrite Eh. repeat split; auto.
    + destruct (startSeekUpdate_tidy (HowlSession.call (HowlSession.Play id) h)
                  Hr) as (H1 & H3 & H4 & H5 & H6).
      cbv zeta in *. unfold tidy.
      cbn -[HowlSession.startSeekUpdate]. rewrite H1, H3, H4, H5. cbn.
      rewrite Eh. repeat split; auto; discriminate.
  - exact Ht.
  - exact Ht.
  - unfold HowlSession.handleSeek.
    destruct (HowlSession.howl h) eqn:Eh; [|exact Ht].
    unfold tidy. cbn. now rewrite Eh.
  - exact Ht.
Qed.

Lemma run_tidy (tracks : list string) (evs : list HowlSession.Event) :
  forall h, tidy h -> tidy (HowlSession.run tracks evs h).
Proof.
  induction evs as [|ev evs IH]; intros h Ht; [exact Ht|].
  apply IH. now apply step_tidy.
Qed.

Lemma initial_tidy : tidy HowlSession.initial.
Proof. unfold tidy. cbn. auto. Qed.

(** X17. In the Howler-based hook, along every schedule, at most one Howl
    is loaded, the one of [soundRef], and at most one seek interval runs,
    the one of [seekInterval]; after the unmount no Howl is loaded and no
    interval runs. *)
Theorem X17_one_howl_one_timer (tracks : list string)
  (evs : list HowlSession.Event) :
  let h := HowlSession.run tracks evs HowlSession.initial in
  (forall id, In id (HowlSession.loaded h) ->
              HowlSession.loaded h = [id] /\ HowlSession.howl h = Some id)
  /\ (forall timer, In timer (HowlSession.running h) ->
                    HowlSession.running h = [timer]
                    /\ HowlSession.seekInterval h = Some timer)
  /\ HowlSession.loaded (HowlSession.step tracks h HowlSession.Unmount) = []
  /\ HowlSession.running (HowlSession.step tracks h HowlSession.Unmount) = [].
Proof.
  intros h. pose proof (run_tidy tracks evs _ initial_tidy) as Ht.
  fold h in Ht. pose proof Ht as (He & Hn & Hr & Hl). split; [|split].
  - intros id Hid. destruct Hl as [Hl|Hl]; rewrite Hl in Hid |- *.
    + destruct Hid.
    + destruct (HowlSession.howl h) as [id'|]; cbn in *; [|tauto].
      destruct Hid as [->|[]]. auto.
  - intros timer Hin. rewrite Hr in Hin |- *.
    destruct (HowlSession.seekInterval h) as [t|]; cbn in *; [|tauto].
    destruct Hin as [->|[]]. auto.
  - destruct (cleanup_tidy h Ht) as (_ & H1 & H2 & _). auto.
Qed.

(** A track switch on a hook whose refs agree with what they refer to. *)
Lemma switch_commands (tracks : list string) (h : HowlSession.Hook)
  (old : nat) :
  tidy h -> HowlSession.howl h = Some old ->
  let h' := HowlSession.run tracks
              [HowlSession.Next; HowlSession.TrackEffect] h in
  let id := HowlSession.howls h in
  HowlPlayer.isPlaying (HowlSession.player h') = true
  /\ HowlSession.howl h' = Some id
  /\ HowlSession.loaded h' = [id]
  /\ HowlSession.running h' = [HowlSession.timers h]
  /\ HowlSession.calls h'
     = (HowlSession.calls h
        ++ [HowlSession.Unload old]
        ++ match HowlSession.seekInterval h with
           | Some timer => [HowlSession.ClearInterval timer]
           | None => []
           end
        ++ [HowlSession.Unload old;
            HowlSession.NewHowl id
              (RangePlayer.trackAt tracks
                 (Z.rem (HowlPlayer.currentTrack (HowlSession.player h) + 1)
                    (Z.of_nat (length tracks))))
              (HowlPlayer.volume (HowlSession.player h));
            HowlSession.Play id;
            HowlSession.SetInterval (HowlSession.timers h)])%list.
Proof.
  destruct h as [pl hw si es ld rn hs ts cs].
  intros (He & Hn & Hr & Hl) Hh. cbn in He, Hn, Hr, Hl, Hh. subst es hw rn.
  cbn [option_list] in Hl.
  cbv zeta.
  destruct si as [t|], Hl as [->| ->];
    cbn -[RangePlayer.trackAt Z.rem Nat.eq_dec];
    repeat match goal with
           | |- context [Nat.eq_dec ?a ?a] =>
               destruct (Nat.eq_dec a a); [|congruence]
           end;
    cbn -[RangePlayer.trackAt Z.rem Nat.eq_dec];
    rewrite <- ?app_assoc; repeat split; reflexivity.
Qed.

(** X18. In the Howler-based hook a [next()] that changes the index, with
    the track effect that follows it, unloads the Howl of the old track (in
    the cleanup and again in the effect), clears the seek interval if one
    runs, creates the Howl of the next track with the current volume, plays
    it and starts one seek interval. *)
Theorem X18_howl_switch_plays (tracks : list string)
  (evs : list HowlSession.Event) (old : nat) :
  let h := HowlSession.run tracks evs HowlSession.initial in
  HowlSession.howl h = Some old ->
  HowlPlayer.currentTrack
    (HowlPlayer.handleNext tracks (HowlSession.player h))
  <> HowlPlayer.currentTrack (HowlSession.player h) ->
  let h' := HowlSession.run tracks
              [HowlSession.Next; HowlSession.TrackEffect] h in
  let id := HowlSession.howls h in
  HowlPlayer.isPlaying (HowlSession.player h') = true
  /\ HowlSession.howl h' = Some id
  /\ HowlSession.loaded h' = [id]
  /\ HowlSession.running h' = [HowlSession.timers h]
  /\ HowlSession.calls h'
     = (HowlSession.calls h
        ++ [HowlSession.Unload old]
        ++ match HowlSession.seekInterval h with
           | Some timer => [HowlSession.ClearInterval timer]
           | None => []
           end
        ++ [HowlSession.Unload old;
            HowlSession.NewHowl id
              (RangePlayer.trackAt tracks
                 (Z.rem (HowlPlayer.currentTrack (HowlSession.player h) + 1)
                    (Z.of_nat (length tracks))))
              (HowlPlayer.volume (HowlSession.player h));
            HowlSession.Play id;
            HowlSession.SetInterval (HowlSession.timers h)])%list.
Proof.
  intros h Hh _. apply switch_commands; [|exact Hh].
  apply run_tidy, initial_tidy.
Qed.

(** Mounted on [a.mp3] and playing, then [next()]. *)
Lemma X18_howl_switch_plays_witness :
  let h := HowlSession.run scenarioTracks
             [HowlSession.TrackEffect; HowlSession.PlayPause;
              HowlSession.Next; HowlSession.TrackEffect]
             HowlSession.initial in
  HowlSession.loaded h = [1%nat] /\ HowlSession.running h = [1%nat].
Proof.
  destruct (X18_howl_switch_plays scenarioTracks
              [HowlSession.TrackEffect; HowlSession.PlayPause] 0%nat)
    as (_ & _ & Hl & Hr & _).
  - vm_compute. reflexivity.
  - vm_compute. discriminate.
  - vm_compute in Hl, Hr. vm_compute. split; [exact Hl | exact Hr].
Defined.
